(** * python-learning: a verification development

    The repository is a set of independent tutorial scripts.  Each module
    below embeds one script: Python objects that are mutated in place live
    in an explicit store, exceptions are results, and [print] appends to an
    output log. *)

From stdpp Require Import gmap strings list fin_maps sorting.
From Stdlib Require Import ZArith NArith Lia.

(** ** concepts/mutable_default_arguments.py *)

Module MutableDefaults.

(** List objects are heap cells; a Python name holds a reference. *)
Abbreviation loc := positive.

(** The values a parameter default can hold in this script. *)
Inductive pyval :=
  | PNone
  | PRef (l : loc).

Section Employees.
Context {V : Type}.

(** What [print] received: a list, or a [__defaults__] tuple whose
    entries are rendered through the store at the time of the call. *)
Inductive printed :=
  | PrintList (xs : list V)
  | PrintDefaults (ds : list (option (list V)))
  | PrintBlank.

(** [heap]: the list objects; [funcs]: the [__defaults__] tuple of each
    function object; [out]: the console. *)
Record state := State {
  heap : gmap loc (list V);
  funcs : gmap string (list pyval);
  out : list printed
}.

Definition init : state := State ∅ ∅ [].

(** Evaluating the list display [[x1, ..., xn]] allocates a new object. *)
Definition alloc (xs : list V) (σ : state) : loc * state :=
  let l := fresh (dom (heap σ)) in
  (l, State (<[l := xs]> (heap σ)) (funcs σ) (out σ)).

Definition print (p : printed) (σ : state) : state :=
  State (heap σ) (funcs σ) (out σ ++ [p]).

(** [emp_list.append(emp)]; [None] has no [append] (AttributeError). *)
Definition list_append (emp_list : pyval) (emp : V) (σ : state) : option state :=
  match emp_list with
  | PNone => None
  | PRef l =>
      xs ← heap σ !! l;
      Some (State (<[l := xs ++ [emp]]> (heap σ)) (funcs σ) (out σ))
  end.

(** [print(emp_list)] shows the object's current contents. *)
Definition print_obj (emp_list : pyval) (σ : state) : option state :=
  match emp_list with
  | PNone => None
  | PRef l => xs ← heap σ !! l; Some (print (PrintList xs) σ)
  end.

(** Binding of the second parameter: the caller's list, or entry 0 of the
    function object's [__defaults__] when the argument is omitted. *)
Definition bind_emp_list (f : string) (arg : option loc) (σ : state) : option pyval :=
  match arg with
  | Some l => Some (PRef l)
  | None => ds ← funcs σ !! f; ds !! 0
  end.

(** [def add_employee(emp, emp_list=[])]: the default expression is
    evaluated here, once. *)
Definition def_add_employee (σ : state) : state :=
  let '(d, σ1) := alloc [] σ in
  State (heap σ1) (<["add_employee" := [PRef d]]> (funcs σ1)) (out σ1).

Definition add_employee (emp : V) (arg : option loc) (σ : state) : option state :=
  emp_list ← bind_emp_list "add_employee" arg σ;
  σ1 ← list_append emp_list emp σ;
  print_obj emp_list σ1.

(** [def add_employee_fixed(emp, emp_list=None)]. *)
Definition def_add_employee_fixed (σ : state) : state :=
  State (heap σ) (<["add_employee_fixed" := [PNone]]> (funcs σ)) (out σ).

Definition add_employee_fixed (emp : V) (arg : option loc) (σ : state) : option state :=
  emp_list ← bind_emp_list "add_employee_fixed" arg σ;
  '(emp_list, σ1) ←
    match emp_list with
    | PNone => let '(l, σ') := alloc [] σ in Some (PRef l, σ')
    | PRef _ => Some (emp_list, σ)
    end;
  σ2 ← list_append emp_list emp σ1;
  print_obj emp_list σ2.

(** [print(f.__defaults__)]. *)
Definition render (σ : state) (v : pyval) : option (list V) :=
  match v with
  | PNone => None
  | PRef l => heap σ !! l
  end.

Definition print_defaults (f : string) (σ : state) : option state :=
  ds ← funcs σ !! f;
  Some (print (PrintDefaults (render σ <$> ds)) σ).

(** A run of calls, each with its optional explicit list argument. *)
Fixpoint run (call : V → option loc → state → option state)
    (calls : list (V * option loc)) (σ : state) : option state :=
  match calls with
  | [] => Some σ
  | (emp, arg) :: rest => σ' ← call emp arg σ; run call rest σ'
  end.

Definition omitted (es : list V) : list (V * option loc) :=
  (λ e, (e, None)) <$> es.

(** The list object that [add_employee.__defaults__[0]] refers to. *)
Definition default_loc (σ : state) : option loc :=
  ds ← funcs σ !! "add_employee";
  v ← ds !! 0;
  match v with PRef l => Some l | PNone => None end.

(** The lists printed by a run that starts with console [o]. *)
Definition printed_after (o : list printed) (σ : state) : list printed :=
  drop (length o) (out σ).

Definition prefixes (es : list V) : list printed :=
  (λ i, PrintList (take (S i) es)) <$> seq 0 (length es).

(** Length of a printed list. *)
Definition printed_length (p : printed) : option nat :=
  match p with
  | PrintList xs => Some (length xs)
  | _ => None
  end.

End Employees.

Arguments state : clear implicits.
Arguments printed : clear implicits.

(** The first example of the script, lines 8-27, and the fix, lines 44-49. *)
Definition script : option (state string) :=
  let '(emps, σ) := alloc ["John"; "Jane"] (def_add_employee init) in
  σ ← add_employee "Aditya" (Some emps) σ;
  let σ := print PrintBlank σ in
  σ ← print_defaults "add_employee" σ;
  σ ← add_employee "Corey" None σ;
  σ ← print_defaults "add_employee" σ;
  σ ← add_employee "Casey" None σ;
  σ ← print_defaults "add_employee" σ;
  σ ← add_employee "Jack" None σ;
  σ ← print_defaults "add_employee" σ;
  let σ := print PrintBlank σ in
  let σ := def_add_employee_fixed σ in
  σ ← print_defaults "add_employee_fixed" σ;
  σ ← add_employee_fixed "Aditya" None σ;
  σ ← add_employee_fixed "Corey" None σ;
  print_defaults "add_employee_fixed" σ.

End MutableDefaults.

(** ** Python strings *)

Module PyStr.

(** A [str] is a sequence of Unicode code points. *)
Abbreviation char := N.
Abbreviation str := (list N).

Local Open Scope N_scope.

(** A string literal of the source (all of them are ASCII). *)
Definition lit (s : string) : str :=
  Ascii.N_of_ascii <$> String.list_ascii_of_string s.

(** Exceptions are values; a call returns or raises. *)
Inductive exn :=
  | ValueError (msg : string).

Inductive result (A : Type) :=
  | Ok (a : A)
  | Raise (e : exn).
Arguments Ok {A} a.
Arguments Raise {A} e.

(** [s.startswith(prefix)]. *)
Fixpoint startswith (prefix s : str) : bool :=
  match prefix, s with
  | [], _ => true
  | p :: prefix', c :: s' => (p =? c)%N && startswith prefix' s'
  | _ :: _, [] => false
  end.

(** [s.startswith((p1, ..., pn))]: some entry of the tuple is a prefix. *)
Definition startswith_any (prefixes : list str) (s : str) : bool :=
  existsb (λ p, startswith p s) prefixes.

(** [s.replace(old, new)] for a one-character [old]. *)
Definition replace_char (old : char) (new : str) (s : str) : str :=
  mjoin ((λ c, if (c =? old)%N then new else [c]) <$> s).

(** Truth value of a string: empty is falsy. *)
Definition truthy (s : str) : bool :=
  match s with [] => false | _ :: _ => true end.

(** The ASCII block, where classification and case are fixed. *)
Definition is_ascii (c : char) : bool := (c <? 128)%N.
Definition ascii_isdigit (c : char) : bool := (48 <=? c)%N && (c <=? 57)%N.
Definition ascii_isupper (c : char) : bool := (65 <=? c)%N && (c <=? 90)%N.
Definition ascii_islower (c : char) : bool := (97 <=? c)%N && (c <=? 122)%N.
Definition ascii_isalnum (c : char) : bool :=
  ascii_isdigit c || ascii_isupper c || ascii_islower c.
Definition ascii_lower (c : char) : char :=
  if ascii_isupper c then (c + 32)%N else c.

(** [str.isalnum] and [str.lower] read the Unicode Character Database of
    the interpreter.  The database is an interface here: which code points
    are alphanumeric, and the full lowercase mapping of a string (one code
    point can lower to several, and the mapping of a code point can depend
    on its neighbours).  On ASCII both are fixed. *)
Class UnicodeData := {
  cp_isalnum : char → bool;
  str_lower : str → str;
  cp_isalnum_ascii : ∀ c, is_ascii c = true → cp_isalnum c = ascii_isalnum c;
  str_lower_ascii : ∀ s,
    forallb is_ascii s = true → str_lower s = ascii_lower <$> s
}.

(** [s.isalnum()]: every character is alphanumeric and there is at least
    one character. *)
Definition isalnum {U : UnicodeData} (s : str) : bool :=
  truthy s && forallb cp_isalnum s.

(** An excerpt of the database (Unicode 14): exact on U+0000-U+00FF, on
    U+0130 LATIN CAPITAL LETTER I WITH DOT ABOVE, a letter whose lowercase
    is the two code points U+0069 U+0307, and on U+0307 COMBINING DOT
    ABOVE, a mark.  Code points outside the excerpt are left unclassified
    and unmapped; nothing below evaluates the excerpt on them. *)
Definition excerpt_isalnum (c : char) : bool :=
  if is_ascii c then ascii_isalnum c
  else if (c <? 256)%N then
    (c =? 170) || (c =? 178) || (c =? 179) || (c =? 181) || (c =? 185) ||
    (c =? 186) || ((188 <=? c) && (c <=? 190)) ||
    ((192 <=? c) && (c <=? 214)) || ((216 <=? c) && (c <=? 246)) ||
    (248 <=? c)
  else (c =? 304).

Definition excerpt_lower_cp (c : char) : str :=
  if is_ascii c then [ascii_lower c]
  else if ((192 <=? c) && (c <=? 214)) || ((216 <=? c) && (c <=? 222))
       then [c + 32]
  else if (c =? 304) then [105; 775]
  else [c].

Definition excerpt_lower (s : str) : str :=
  mjoin (excerpt_lower_cp <$> s).

End PyStr.

(** ** libraries/pydantic/05_custom_validator.py *)

Module CustomValidator.
Import PyStr.

Definition username_error : exn :=
  ValueError "Username must be alphanumeric (underscores allowed)".

Section Validators.
Context {U : UnicodeData}.

(** [User.validate_username], lines 30-35; 95 is the underscore. *)
Definition validate_username (v : str) : result str :=
  if negb (isalnum (replace_char 95 [] v)) then Raise username_error
  else Ok (str_lower v).

(** The acceptance condition in the words of the specification: [v] with
    all underscores removed is non-empty and alphanumeric. *)
Definition accepts_spec (v : str) : Prop :=
  let stripped := filter (λ c, c ≠ 95%N) v in
  stripped ≠ [] ∧ Forall (λ c, cp_isalnum c = true) stripped.
End Validators.

(** [User.add_https], lines 51-56; the argument is a string or [None]. *)
Definition add_https (v : option str) : option str :=
  match v with
  | Some s =>
      if truthy s && negb (startswith_any [lit "http://"; lit "https://"] s)
      then Some (lit "https://" ++ s)
      else v
  | None => v
  end.

End CustomValidator.

(** ** frameworks/fastapi: concepts/00_basic.py and fastapi_blog/main.py *)

Module FastAPIRouting.

(** What a path operation function hands back to the framework. *)
Inductive body :=
  | Dict (items : list (string * string))
  | Text (s : string)
  | Posts (ps : list (list (string * string)))
  | Template (name : string) (context : list (string * list (list (string * string)))).

Inductive response_class :=
  | JSONResponse
  | HTMLResponse.

(** The path operation functions of the two scripts. *)
Inductive endpoint :=
  | basic_home
  | basic_about
  | blog_home
  | blog_get_posts.

#[export] Instance endpoint_eq_dec : EqDecision endpoint.
Proof. solve_decision. Defined.

(** One entry of [app.routes] added by [@app.get(path, ...)]. *)
Record route := Route {
  path : string;
  operation : endpoint;
  response : response_class;
  include_in_schema : bool
}.

(** The application object: the routes, in registration order. *)
Abbreviation app := (list route).

(** [FastAPI()], counting only the routes that the scripts register. *)
Definition FastAPI : app := [].

(** [@app.get(path, response_class=..., include_in_schema=...)] applied to
    [f]: the route is appended and [f] is returned, so that decorators
    stack. *)
Definition get (p : string) (rc : response_class) (schema : bool)
    (f : endpoint) (a : app) : endpoint * app :=
  (f, a ++ [Route p f rc schema]).

(** [posts], fastapi_blog/main.py lines 11-26. *)
Definition posts : list (list (string * string)) :=
  [ [ ("id", "1"); ("author", "Corey Schafer");
      ("title", "FastAPI is Awesome");
      ("content", "This framework is really easy to use and super fast.");
      ("date_posted", "April 20, 2025") ];
    [ ("id", "2"); ("author", "Jane Doe");
      ("title", "Python is Great for Web Development");
      ("content", "Python is a great language for web development, and FastAPI makes it even better.");
      ("date_posted", "April 21, 2025") ] ].

(** The bodies of the path operation functions. *)
Definition call (f : endpoint) : body :=
  match f with
  | basic_home => Dict [("message", "Hello World!")]
  | basic_about => Text "<h1>This is the HTML response page</h1>"
  | blog_home => Template "home.html" [("posts", posts)]
  | blog_get_posts => Posts posts
  end.

(** concepts/00_basic.py, lines 4-21.  Stacked decorators apply from the
    bottom up: "/info" is registered before "/about". *)
Definition basic_app : app :=
  let a := FastAPI in
  let '(_, a) := get "/" JSONResponse true basic_home a in
  let '(f, a) := get "/info" HTMLResponse true basic_about a in
  let '(_, a) := get "/about" HTMLResponse true f a in
  a.

(** tutorial_projects/fastapi_blog/main.py, lines 4 and 30-39. *)
Definition blog_app : app :=
  let a := FastAPI in
  let '(f, a) := get "/posts" JSONResponse false blog_home a in
  let '(_, a) := get "/" JSONResponse false f a in
  let '(_, a) := get "/api/posts" JSONResponse true blog_get_posts a in
  a.

(** The router serves a request with the first route whose path matches. *)
Definition match_route (a : app) (p : string) : option route :=
  list_find (λ r, path r = p) a ≫= λ '(_, r), Some r.

Definition serve (a : app) (p : string) : option (response_class * body) :=
  r ← match_route a p; Some (response r, call (operation r)).

Definition paths (a : app) : list string := path <$> a.

Definition operations (a : app) : list endpoint :=
  remove_dups (operation <$> a).

(** Keys of a returned dict. *)
Definition keys (b : body) : list string :=
  match b with
  | Dict items => fst <$> items
  | _ => []
  end.

End FastAPIRouting.

(** ** Regular expressions over code points *)

Module Regex.
Import PyStr.
Local Open Scope N_scope.

(** The fragment of the pattern syntax that the scripts use: character
    classes given by ranges, concatenation, alternation and repetition. *)
Inductive regex :=
  | Void
  | Eps
  | Class (ranges : list (N * N))
  | Cat (r1 r2 : regex)
  | Alt (r1 r2 : regex)
  | Star (r : regex).

Definition in_class (ranges : list (N * N)) (c : char) : bool :=
  existsb (λ '(lo, hi), (lo <=? c) && (c <=? hi)) ranges.

(** A literal character, [r+] and [r{n,}]. *)
Definition chr (c : char) : regex := Class [(c, c)].
Definition plus (r : regex) : regex := Cat r (Star r).
Fixpoint at_least (n : nat) (r : regex) : regex :=
  match n with
  | O => Star r
  | S n' => Cat r (at_least n' r)
  end.

(** The strings a pattern denotes. *)
Inductive matches : regex → str → Prop :=
  | matches_eps : matches Eps []
  | matches_class rs c : in_class rs c = true → matches (Class rs) [c]
  | matches_cat r1 r2 s1 s2 :
      matches r1 s1 → matches r2 s2 → matches (Cat r1 r2) (s1 ++ s2)
  | matches_alt_l r1 r2 s : matches r1 s → matches (Alt r1 r2) s
  | matches_alt_r r1 r2 s : matches r2 s → matches (Alt r1 r2) s
  | matches_star_nil r : matches (Star r) []
  | matches_star_app r s1 s2 :
      matches r s1 → matches (Star r) s2 → matches (Star r) (s1 ++ s2).

(** Matching by derivatives. *)
Fixpoint nullable (r : regex) : bool :=
  match r with
  | Void => false
  | Eps => true
  | Class _ => false
  | Cat r1 r2 => nullable r1 && nullable r2
  | Alt r1 r2 => nullable r1 || nullable r2
  | Star _ => true
  end.

Fixpoint deriv (c : char) (r : regex) : regex :=
  match r with
  | Void => Void
  | Eps => Void
  | Class rs => if in_class rs c then Eps else Void
  | Cat r1 r2 =>
      if nullable r1 then Alt (Cat (deriv c r1) r2) (deriv c r2)
      else Cat (deriv c r1) r2
  | Alt r1 r2 => Alt (deriv c r1) (deriv c r2)
  | Star r1 => Cat (deriv c r1) (Star r1)
  end.

(** A pattern anchored with [^] and [$] has to match the whole input. *)
Fixpoint fullmatch (r : regex) (s : str) : bool :=
  match s with
  | [] => nullable r
  | c :: s' => fullmatch (deriv c r) s'
  end.

End Regex.

(** ** libraries/pydantic/03_annotated.py *)

Module PydanticAnnotated.
Import PyStr Regex.

(** The constraints that [Field(...)] attaches to a type. *)
Inductive int_constraint :=
  | gt (bound : Z)
  | ge (bound : Z)
  | le (bound : Z).

Inductive str_constraint :=
  | min_length (n : nat)
  | max_length (n : nat)
  | pattern (r : regex).

(** The [type=] tag of an error line. *)
Inductive error_type :=
  | greater_than
  | greater_than_equal
  | less_than_equal
  | string_too_short
  | string_too_long
  | string_pattern_mismatch.

Definition check_int (c : int_constraint) (v : Z) : option error_type :=
  match c with
  | gt b => if (b <? v)%Z then None else Some greater_than
  | ge b => if (b <=? v)%Z then None else Some greater_than_equal
  | le b => if (v <=? b)%Z then None else Some less_than_equal
  end.

(** The length of a string is its number of code points. *)
Definition check_str (c : str_constraint) (v : str) : option error_type :=
  match c with
  | min_length n => if (n <=? length v)%nat then None else Some string_too_short
  | max_length n => if (length v <=? n)%nat then None else Some string_too_long
  | pattern r => if fullmatch r v then None else Some string_pattern_mismatch
  end.

(** A field reports its first violated constraint. *)
Fixpoint first_error {C A} (check : C → A → option error_type)
    (cs : list C) (v : A) : option error_type :=
  match cs with
  | [] => None
  | c :: cs' =>
      match check c v with
      | Some e => Some e
      | None => first_error check cs' v
      end
  end.

(** The keyword arguments of [User(...)], of the annotated types. *)
Record User := {
  uid : Z;
  username : str;
  email : str;
  age : Z
}.

(** [^[a-zA-Z0-9._%+-]+@[a-zA-Z0-9.-]+\.[a-zA-Z]{2,}$], line 13. *)
Definition email_pattern : regex :=
  Cat (plus (Class [(97, 122); (65, 90); (48, 57); (46, 46); (95, 95);
                    (37, 37); (43, 43); (45, 45)]%N))
   (Cat (chr 64)
    (Cat (plus (Class [(97, 122); (65, 90); (48, 57); (46, 46); (45, 45)]%N))
     (Cat (chr 46)
      (at_least 2 (Class [(97, 122); (65, 90)]%N))))).

(** The annotations of the class body, lines 7-17. *)
Definition uid_field : list int_constraint := [gt 0].
Definition username_field : list str_constraint := [min_length 3; max_length 20].
Definition email_field : list str_constraint := [pattern email_pattern].
Definition age_field : list int_constraint := [ge 13; le 130].

(** A [ValidationError]: the model's name and one line per failed field. *)
Inductive validation :=
  | Valid (u : User)
  | ValidationError (title : string) (errors : list (string * error_type)).

Definition line (loc : string) (e : option error_type) : list (string * error_type) :=
  match e with
  | Some t => [(loc, t)]
  | None => []
  end.

(** Model validation, as the library performs it and as the output quoted
    in lines 33-38 shows it: every field is validated, in declaration
    order, and the errors of all fields are raised together. *)
Definition User_validate (u : User) : validation :=
  let errors :=
    line "uid" (first_error check_int uid_field (uid u)) ++
    line "username" (first_error check_str username_field (username u)) ++
    line "email" (first_error check_str email_field (email u)) ++
    line "age" (first_error check_int age_field (age u)) in
  match errors with
  | [] => Valid u
  | _ :: _ => ValidationError "User" errors
  end.

(** The invalid user of lines 23-29. *)
Definition invalid_user : User :=
  {| uid := 0; username := lit "cs"; email := lit "aditya@email.com"; age := 12 |}.

(** The declared constraints, field by field. *)
Definition uid_ok (u : User) : Prop := (0 < uid u)%Z.
Definition username_ok (u : User) : Prop := 3 ≤ length (username u) ≤ 20.
Definition email_ok (u : User) : Prop := matches email_pattern (email u).
Definition age_ok (u : User) : Prop := (13 ≤ age u ≤ 130)%Z.

Definition errors_of (v : validation) : list (string * error_type) :=
  match v with
  | Valid _ => []
  | ValidationError _ errors => errors
  end.

End PydanticAnnotated.

(** ** libraries/concurrent_futures/processpool_01_pickle.py *)

Module ProcessPoolPickle.

(** The values that cross the process boundary in this script: integers
    and instances of a class with one attribute [val]. *)
Inductive value :=
  | Int (n : Z)
  | Obj (cls : list string) (val : Z).

(** [PickleFailure q]: the object with qualified name [q] could not be
    serialized (an AttributeError or a PicklingError, by interpreter
    version); [TypeError]: an operation on a value of the wrong kind. *)
Inductive exn :=
  | PickleFailure (qualname : list string)
  | TypeError.

Inductive result (A : Type) :=
  | Ok (a : A)
  | Raise (e : exn).
Arguments Ok {A} a.
Arguments Raise {A} e.

Definition bind {A B} (m : result A) (k : A → result B) : result B :=
  match m with
  | Ok a => k a
  | Raise e => Raise e
  end.

(** A function object: its identity, its [__qualname__] split at the dots,
    and its body. *)
Record function := Function {
  fid : positive;
  qualname : list string;
  code : value → result value
}.

Inductive object :=
  | Func (f : function)
  | Class (name : string).

(** [top_level_task], lines 57-58. *)
Definition top_level_task : function :=
  Function 1 ["top_level_task"]
    (λ n, match n with Int n => Ok (Int (n * n)) | _ => Raise TypeError end).

(** [Picklable(val)] and [Picklable.compute], lines 61-68. *)
Definition Picklable (val : Z) : value := Obj ["Picklable"] val.

Definition Picklable_compute (self : value) : result value :=
  match self with
  | Obj ["Picklable"] val => Ok (Int (val * 2))
  | _ => Raise TypeError
  end.

(** [compute], lines 72-73. *)
Definition compute : function :=
  Function 2 ["compute"] (λ obj, Picklable_compute obj).

(** [nested_task], lines 86-87, and the lambda of line 100, both created
    inside [main]. *)
Definition nested_task : function :=
  Function 3 ["main"; "<locals>"; "nested_task"]
    (λ n, match n with Int n => Ok (Int (n * n)) | _ => Raise TypeError end).

Definition lambda_task : function :=
  Function 4 ["main"; "<locals>"; "<lambda>"]
    (λ x, match x with Int x => Ok (Int (x * x)) | _ => Raise TypeError end).

(** The namespace of the module, which every worker process has too. *)
Definition module : gmap string object :=
  {[ "top_level_task" := Func top_level_task;
     "Picklable" := Class "Picklable";
     "compute" := Func compute ]}.

(** Functions and classes are pickled by reference: the qualified name must
    lead from the module namespace back to the very same object, and a name
    that passes through [<locals>] leads nowhere. *)
Definition pickle_function (ns : gmap string object) (f : function) : result string :=
  if bool_decide ("<locals>" ∈ qualname f) then Raise (PickleFailure (qualname f))
  else match qualname f with
       | [name] =>
           match ns !! name with
           | Some (Func g) =>
               if bool_decide (fid g = fid f) then Ok name
               else Raise (PickleFailure (qualname f))
           | _ => Raise (PickleFailure (qualname f))
           end
       | _ => Raise (PickleFailure (qualname f))
       end.

Definition pickle_class (ns : gmap string object) (cls : list string) : result string :=
  if bool_decide ("<locals>" ∈ cls) then Raise (PickleFailure cls)
  else match cls with
       | [name] =>
           match ns !! name with
           | Some (Class c) => Ok name
           | _ => Raise (PickleFailure cls)
           end
       | _ => Raise (PickleFailure cls)
       end.

(** An instance is pickled as its class, by reference, and its state. *)
Definition pickle_value (ns : gmap string object) (v : value) : result value :=
  match v with
  | Int n => Ok (Int n)
  | Obj cls val => bind (pickle_class ns cls) (λ _, Ok (Obj cls val))
  end.

(** The worker resolves the function by name and calls it. *)
Definition worker (ns : gmap string object) (name : string) (arg : value) : result value :=
  match ns !! name with
  | Some (Func g) => code g arg
  | _ => Raise (PickleFailure [name])
  end.

(** A future, once its work item is done: [result()] returns the value or
    raises the exception that was set. *)
Record future := Future { outcome : result value }.

(** [executor.submit(fn, arg)] never raises; a work item that cannot be
    pickled ends in its future's exception. *)
Definition submit (ns : gmap string object) (fn : function) (arg : value) : future :=
  Future (bind (pickle_function ns fn) (λ name,
          bind (pickle_value ns arg) (λ arg',
          worker ns name arg'))).

(** [[f.result() for f in futures]]: the first exception ends the loop. *)
Fixpoint results (futures : list future) : result (list value) :=
  match futures with
  | [] => Ok []
  | f :: rest =>
      bind (outcome f) (λ v, bind (results rest) (λ vs, Ok (v :: vs)))
  end.

(** Console lines; the blank line that starts each header of [main] is
    left out. *)
Inductive line :=
  | Text (s : string)
  | Results (vs : list value)
  | Caught (e : exn).

(** A statement of [main] writes to the console and may raise. *)
Definition prog (A : Type) : Type := list line → list line * result A.

Definition ret {A} (a : A) : prog A := λ out, (out, Ok a).

Definition seq_prog {A B} (m : prog A) (k : A → prog B) : prog B :=
  λ out, match m out with
         | (out', Ok a) => k a out'
         | (out', Raise e) => (out', Raise e)
         end.

Definition print (l : line) : prog unit := λ out, (out ++ [l], Ok tt).

Definition lift {A} (r : result A) : prog A := λ out, (out, r).

(** [try: body except Exception as e: handler(e)]. *)
Definition try_except {A} (body : prog A) (handler : exn → prog A) : prog A :=
  λ out, match body out with
         | (out', Ok a) => (out', Ok a)
         | (out', Raise e) => handler e out'
         end.

(** The body of each [with ProcessPoolExecutor(max_workers=2)] block. *)
Definition pool_block (fn : function) (args : list value) : prog unit :=
  let futures := submit module fn <$> args in
  seq_prog (lift (results futures)) (λ rs, print (Results rs)).

Definition range (n : nat) : list Z := Z.of_nat <$> seq 0 n.

(** [main], lines 76-115. *)
Definition main : prog unit :=
  seq_prog (print (Text "=== Top-level function (works) ===")) (λ _,
  seq_prog (pool_block top_level_task (Int <$> range 5)) (λ _,
  seq_prog (print (Text "=== Nested function (fails) ===")) (λ _,
  seq_prog (try_except (pool_block nested_task (Int <$> range 5))
                       (λ e, print (Caught e))) (λ _,
  seq_prog (print (Text "=== Lambda function (fails) ===")) (λ _,
  seq_prog (try_except (pool_block lambda_task (Int <$> range 5))
                       (λ e, print (Caught e))) (λ _,
  seq_prog (print (Text "=== Picklable object as argument (works) ===")) (λ _,
  seq_prog (pool_block compute (Picklable <$> range 5)) (λ _,
  print (Text "Demo complete. Always use picklable top-level functions for ProcessPoolExecutor tasks."))))))))).

(** Calling the function on each argument in the parent process. *)
Fixpoint map_code (fn : function) (args : list value) : result (list value) :=
  match args with
  | [] => Ok []
  | a :: rest => bind (code fn a) (λ v, bind (map_code fn rest) (λ vs, Ok (v :: vs)))
  end.

End ProcessPoolPickle.

(** ** concepts/mutable_default_arguments.py: runs of calls and the clock *)

Module MutableDefaultsRuns.
Import MutableDefaults.

Section Runs.
Context {V : Type}.

(** The employees that a run of [add_employee] calls hands to the list
    object [l], when [d] is the object behind the default: those of the
    calls that pass [l] and, for [l = d], those that pass nothing. *)
Definition received (d l : loc) (calls : list (V * option loc)) : list V :=
  fst <$> filter (λ c, default d (snd c) = l) calls.

(** The same for [add_employee_fixed], where an omitted argument goes to a
    list of its own. *)
Definition passed_to (l : loc) (calls : list (V * option loc)) : list V :=
  fst <$> filter (λ c, snd c = Some l) calls.

End Runs.

(** [display_time] and [display_time_fixed], lines 61-88.  A [datetime] is
    a point on the clock; [print] receives its [strftime] rendering, which
    is a function of the datetime, so the log keeps the datetime itself. *)
Record clock_state := ClockState {
  now : Z;
  time_defaults : gmap string (option Z);
  shown : list Z
}.

(** [def display_time(time_to_print=datetime.now())]: the clock is read
    here. *)
Definition def_display_time (σ : clock_state) : clock_state :=
  ClockState (now σ) (<["display_time" := Some (now σ)]> (time_defaults σ)) (shown σ).


(** Parameter binding: the argument, or the stored default. *)
Definition bind_time (f : string) (arg : option Z) (σ : clock_state) : option (option Z) :=
  match arg with
  | Some t => Some (Some t)
  | None => time_defaults σ !! f
  end.

(** [None.strftime] raises AttributeError. *)
Definition display_time (arg : option Z) (σ : clock_state) : option clock_state :=
  time_to_print ← bind_time "display_time" arg σ;
  t ← time_to_print;
  Some (ClockState (now σ) (time_defaults σ) (shown σ ++ [t])).


(** The statements of the second example: a call without argument, or time
    passing ([time.sleep] and whatever else takes time). *)
Inductive stmt :=
  | Call
  | Elapse (dt : Z).

Definition exec (f : option Z → clock_state → option clock_state)
    (st : stmt) (σ : clock_state) : option clock_state :=
  match st with
  | Call => f None σ
  | Elapse dt => Some (ClockState (now σ + dt) (time_defaults σ) (shown σ))
  end.

Fixpoint exec_all (f : option Z → clock_state → option clock_state)
    (sts : list stmt) (σ : clock_state) : option clock_state :=
  match sts with
  | [] => Some σ
  | st :: rest => σ' ← exec f st σ; exec_all f rest σ'
  end.

(** The clock readings at the calls of a program started at time [t]. *)
Fixpoint call_times (t : Z) (sts : list stmt) : list Z :=
  match sts with
  | [] => []
  | Call :: rest => t :: call_times t rest
  | Elapse dt :: rest => call_times (t + dt) rest
  end.

End MutableDefaultsRuns.

(** ** libraries/pydantic: the patterns of 03_annotated.py and 07_nested_models.py *)

Module PydanticPatterns.
Import PyStr Regex.
Local Open Scope N_scope.

(** The character sets of the e-mail pattern, spelled out. *)
Definition ascii_isalpha (c : char) : bool := ascii_isupper c || ascii_islower c.

Definition email_local_char (c : char) : bool :=
  ascii_isalnum c || (c =? 46) || (c =? 95) || (c =? 37) || (c =? 43) || (c =? 45).

Definition email_domain_char (c : char) : bool :=
  ascii_isalnum c || (c =? 46) || (c =? 45).

(** An address in words: a non-empty local part, an at sign (64), a
    non-empty domain, a dot (46) and at least two letters. *)
Definition email_shape (s : str) : Prop :=
  ∃ local domain tld,
    s = local ++ [64] ++ domain ++ [46] ++ tld ∧
    local ≠ [] ∧ forallb email_local_char local = true ∧
    domain ≠ [] ∧ forallb email_domain_char domain = true ∧
    (2 ≤ length tld)%nat ∧ forallb ascii_isalpha tld = true.

(** [slug: Annotated[str, Field(pattern=r"^[a-z0-9-]+$")]],
    07_nested_models.py line 30 and 08_config_dict.py line 39. *)
Definition slug_pattern : regex :=
  plus (Class [(97, 122); (48, 57); (45, 45)]).

Definition slug_char (c : char) : bool :=
  ascii_islower c || ascii_isdigit c || (c =? 45).

End PydanticPatterns.

(** ** libraries/pydantic/03_annotated.py: the error lines of a field *)

Module PydanticErrorLines.
Import PydanticAnnotated.

(** The error types that the annotations of each field of [User] can
    produce. *)
Definition line_allowed (l : string * error_type) : bool :=
  match l with
  | ("uid", greater_than) => true
  | ("username", string_too_short) => true
  | ("username", string_too_long) => true
  | ("email", string_pattern_mismatch) => true
  | ("age", greater_than_equal) => true
  | ("age", less_than_equal) => true
  | _ => false
  end.

End PydanticErrorLines.

(** ** libraries/pydantic/00_why_pydantic.py *)

Module ManualValidation.
Import PyStr.

(** The objects a caller may pass; [PyOther] stands for an object of any
    type that is neither [str], [int], [bool] nor [NoneType]. *)
Inductive pyobj :=
  | PyStr (s : str)
  | PyInt (z : Z)
  | PyBool (b : bool)
  | PyNone
  | PyOther (repr : string).

(** [isinstance(v, str)] and [isinstance(v, int)]; [bool] is a subclass of
    [int]. *)
Definition isinstance_str (v : pyobj) : bool :=
  match v with
  | PyStr _ => true
  | _ => false
  end.

Definition isinstance_int (v : pyobj) : bool :=
  match v with
  | PyInt _ | PyBool _ => true
  | _ => false
  end.

Inductive outcome :=
  | Return (d : gmap string pyobj)
  | RaiseTypeError (msg : string).

(** [create_user], lines 2-10. *)
Definition create_user (username email age : pyobj) : outcome :=
  if negb (isinstance_str username) then RaiseTypeError "Username must be a string"
  else if negb (isinstance_str email) then RaiseTypeError "Email must be a string"
  else if negb (isinstance_int age) then RaiseTypeError "Age must be an integer"
  else Return {[ "username" := username; "email" := email; "age" := age ]}.

End ManualValidation.

(** ** libraries/pydantic/06_computed_field.py *)

Module ComputedField.
Import PyStr.

(** The fields of [User] that the computed fields read ([uid] is a random
    UUID and plays no part). *)
Record User := {
  username : str;
  first_name : str;
  last_name : str;
  follower_count : Z
}.

(** [display_name], lines 20-25; 32 is the blank. *)
Definition display_name (self : User) : str :=
  if truthy (first_name self) && truthy (last_name self)
  then first_name self ++ [32%N] ++ last_name self
  else username self.

(** [is_influencer], lines 27-30. *)
Definition is_influencer (self : User) : bool :=
  (10000 <=? follower_count self)%Z.

End ComputedField.

(** ** libraries/concurrent_futures/processpool_03_shared_memory_custom_objects.py
    and processpool_04_shared_memory_custom_objectsv2.py *)

Module SharedState.

Inductive exn :=
  | AttributeError (name : string)
  | KeyError (key : string).

Inductive result (A : Type) :=
  | Ok (a : A)
  | Raise (e : exn).
Arguments Ok {A} a.
Arguments Raise {A} e.

(** What the manager process holds: the attributes of the [Namespace], or
    the items of the [dict]; and the console. *)
Record shared := Shared {
  data : gmap string Z;
  console : list (Z * Z * Z)
}.

(** A statement changes the shared state and returns or raises; what was
    changed before an exception stays changed. *)
Definition M (A : Type) : Type := shared → shared * result A.

Definition ret {A} (a : A) : M A := λ σ, (σ, Ok a).

Definition bind {A B} (m : M A) (k : A → M B) : M B :=
  λ σ, match m σ with
       | (σ', Ok a) => k a σ'
       | (σ', Raise e) => (σ', Raise e)
       end.

#[export] Instance M_ret : MRet M := @ret.
#[export] Instance M_bind : MBind M := λ A B k m, bind m k.

(** [ns.name]. *)
Definition getattr (name : string) : M Z :=
  λ σ, match data σ !! name with
       | Some v => (σ, Ok v)
       | None => (σ, Raise (AttributeError name))
       end.

(** [d[key]]. *)
Definition getitem (key : string) : M Z :=
  λ σ, match data σ !! key with
       | Some v => (σ, Ok v)
       | None => (σ, Raise (KeyError key))
       end.

(** [ns.name = v] and [d[key] = v]. *)
Definition store (name : string) (v : Z) : M unit :=
  λ σ, (Shared (<[name := v]> (data σ)) (console σ), Ok tt).

(** [print(f"Process modifying: x={x}, y={y}, delta={delta}")]. *)
Definition print_modifying (x y delta : Z) : M unit :=
  λ σ, (Shared (data σ) (console σ ++ [(x, y, delta)]), Ok tt).

(** [modify_data], processpool_03 lines 72-88: the body runs with the lock
    held, one task at a time. *)
Definition modify_data (delta : Z) : M (Z * Z) :=
  x ← getattr "x";
  y ← getattr "y";
  'tt ← print_modifying x y delta;
  x ← getattr "x";
  'tt ← store "x" (x + delta);
  y ← getattr "y";
  'tt ← store "y" (y + delta);
  x ← getattr "x";
  y ← getattr "y";
  ret (x, y).

(** [modify], processpool_04 lines 22-27, likewise under the lock. *)
Definition modify (delta : Z) : M (Z * Z) :=
  x ← getitem "x";
  'tt ← store "x" (x + delta);
  y ← getitem "y";
  'tt ← store "y" (y + delta);
  x ← getitem "x";
  y ← getitem "y";
  ret (x, y).

(** The tasks of a pool take the lock in some order; the first exception
    is the one that [result()] raises. *)
Fixpoint run_tasks (task : Z → M (Z * Z)) (order : list Z) : M (list (Z * Z)) :=
  match order with
  | [] => ret []
  | delta :: rest =>
      r ← task delta;
      rs ← run_tasks task rest;
      ret (r :: rs)
  end.

(** [MyData] of both scripts. *)
Record MyData := {
  x : Z;
  y : Z
}.

(** [MyData.get_values], processpool_04 lines 14-15. *)
Definition get_values (self : MyData) : gmap string Z :=
  {[ "x" := x self; "y" := y self ]}.

(** [MyData.modify_values], processpool_04 lines 17-19: two assignments,
    one after the other. *)
Definition modify_values (self : MyData) (values_dict : gmap string Z) : MyData * result unit :=
  match values_dict !! "x" with
  | None => (self, Raise (KeyError "x"))
  | Some vx =>
      let self1 := {| x := vx; y := y self |} in
      match values_dict !! "y" with
      | None => (self1, Raise (KeyError "y"))
      | Some vy => ({| x := x self1; y := vy |}, Ok tt)
      end
  end.

Definition total (deltas : list Z) : Z := foldr Z.add 0%Z deltas.

(** processpool_03, lines 91-121: the attributes go into a new Namespace,
    the tasks run in the order in which they get the lock, the attributes
    come back. *)
Definition script_03 (my_obj : MyData) (order : list Z) : MyData * result unit :=
  let σ := Shared {[ "x" := x my_obj; "y" := y my_obj ]} [] in
  match run_tasks modify_data order σ with
  | (σ', Raise e) => (my_obj, Raise e)
  | (σ', Ok _) =>
      match getattr "x" σ' with
      | (_, Raise e) => (my_obj, Raise e)
      | (_, Ok vx) =>
          match getattr "y" σ' with
          | (_, Raise e) => ({| x := vx; y := y my_obj |}, Raise e)
          | (_, Ok vy) => ({| x := vx; y := vy |}, Ok tt)
          end
      end
  end.

(** processpool_04, lines 31-50. *)
Definition script_04 (my_data : MyData) (order : list Z) : MyData * result unit :=
  let σ := Shared (get_values my_data) [] in
  match run_tasks modify order σ with
  | (σ', Raise e) => (my_data, Raise e)
  | (σ', Ok _) => modify_values my_data (data σ')
  end.

End SharedState.

(** ** libraries/concurrent_futures/processpool_02_shared_memory.py: the threads *)

Module ThreadSharedList.

(** The two moments at which [thread_task(n)], lines 48-52, touches
    [shared_list]: [shared_list.append(n)] and, after the sleep,
    [shared_list.copy()]; each is one indivisible list operation. *)
Inductive event :=
  | Append (n : Z)
  | Copy (n : Z).

Definition thread_task (n : Z) : list event := [Append n; Copy n].

(** The module-level list, and what the tasks have returned so far. *)
Record state := State {
  shared_list : list Z;
  returned : list (Z * list Z)
}.

Definition init : state := State [] [].

Definition step (e : event) (σ : state) : state :=
  match e with
  | Append n => State (shared_list σ ++ [n]) (returned σ)
  | Copy n => State (shared_list σ) (returned σ ++ [(n, shared_list σ)])
  end.

Fixpoint exec (sched : list event) (σ : state) : state :=
  match sched with
  | [] => σ
  | e :: rest => exec rest (step e σ)
  end.

(** The interleavings of a pool of threads, each given by the events it
    still has to perform: at every moment some thread performs its next
    event. *)
Inductive schedule : list (list event) → list event → Prop :=
  | schedule_nil ts :
      Forall (λ t, t = []) ts → schedule ts []
  | schedule_cons ts e t rest sched :
      ts ≡ₚ (e :: t) :: rest →
      schedule (t :: rest) sched →
      schedule ts (e :: sched).

(** The arguments that a thread still has to append, or to return a copy
    for. *)
Definition pending (t : list event) : list Z :=
  omap (λ e, match e with Append n => Some n | Copy _ => None end) t.

Definition copies (t : list event) : list Z :=
  omap (λ e, match e with Copy n => Some n | Append _ => None end) t.

(** A thread is at its start, between its two events, or done; between
    the events its argument is in the list. *)
Definition wf (l : list Z) (t : list event) : Prop :=
  t = [] ∨ (∃ n, t = [Append n; Copy n]) ∨ (∃ n, t = [Copy n] ∧ n ∈ l).

End ThreadSharedList.

(** * Theorems *)

(** ** concepts/mutable_default_arguments.py *)

Module MutableDefaultsProofs.
Import MutableDefaults.

Example script_output :
  out <$> script = Some
    [ PrintList ["John"; "Jane"; "Aditya"];
      PrintBlank;
      PrintDefaults [Some []];
      PrintList ["Corey"];
      PrintDefaults [Some ["Corey"]];
      PrintList ["Corey"; "Casey"];
      PrintDefaults [Some ["Corey"; "Casey"]];
      PrintList ["Corey"; "Casey"; "Jack"];
      PrintDefaults [Some ["Corey"; "Casey"; "Jack"]];
      PrintBlank;
      PrintDefaults [None];
      PrintList ["Aditya"];
      PrintList ["Corey"];
      PrintDefaults [None] ].
Proof. vm_compute. reflexivity. Qed.


Section Employees.
Context {V : Type}.
Implicit Types (σ : state V) (es xs : list V) (e : V) (d l : loc).

Lemma def_add_employee_spec σ :
  let d := fresh (dom (heap σ)) in
  (d ∉ dom (heap σ)) ∧
  (def_add_employee σ =
    State (<[d := []]> (heap σ)) (<["add_employee" := [PRef d]]> (funcs σ)) (out σ)).
Proof. split; [apply is_fresh | reflexivity]. Qed.

(** One call without the argument appends to the default object. *)
Lemma add_employee_omitted σ d xs e :
  funcs σ !! "add_employee" = Some [PRef d] →
  heap σ !! d = Some xs →
  add_employee e None σ =
    Some (State (<[d := xs ++ [e]]> (heap σ)) (funcs σ)
                (out σ ++ [PrintList (xs ++ [e])])).
Proof.
  intros Hf Hd. unfold add_employee, bind_emp_list.
  rewrite Hf. simpl. rewrite Hd. simpl.
  by rewrite lookup_insert_eq.
Qed.

(** A call with an explicit list other than the default leaves the default
    object and the function object alone. *)
Lemma add_employee_explicit σ σ' d l e :
  l ≠ d →
  add_employee e (Some l) σ = Some σ' →
  heap σ' !! d = heap σ !! d ∧ funcs σ' = funcs σ.
Proof.
  intros Hne. unfold add_employee. simpl.
  destruct (heap σ !! l) as [ys|] eqn:Hl; simpl; [|done].
  rewrite lookup_insert_eq. simpl. intros [= <-]. simpl.
  by rewrite lookup_insert_ne.
Qed.

Lemma run_add_employee_omitted es : ∀ σ d xs,
  funcs σ !! "add_employee" = Some [PRef d] →
  heap σ !! d = Some xs →
  run add_employee (omitted es) σ =
    Some (State (<[d := xs ++ es]> (heap σ)) (funcs σ)
                (out σ ++ ((λ i, PrintList (xs ++ take (S i) es)) <$> seq 0 (length es)))).
Proof.
  induction es as [|e es IH]; intros σ d xs Hf Hd.
  - simpl. rewrite !app_nil_r. rewrite insert_id by done. by destruct σ.
  - simpl. rewrite (add_employee_omitted σ d xs e Hf Hd). simpl.
    rewrite (IH _ d (xs ++ [e])); simpl; [|done|by rewrite lookup_insert_eq].
    rewrite insert_insert_eq. rewrite <- !app_assoc. simpl.
    do 3 f_equal. rewrite <- seq_shift, <- list_fmap_compose. simpl.
    f_equal. apply list_fmap_ext. intros i x _. simpl. by rewrite <- app_assoc.
Qed.

(** C1. [def add_employee] creates the default list once; [n] calls that
    omit [emp_list] all append to that one object, no call allocates a
    list, the object ends up holding [e1, ..., en] in call order, and the
    i-th call prints a list of length [i]. *)
Theorem add_employee_default_shared σ es :
  ∃ d σ',
    (d ∉ dom (heap σ)) ∧
    default_loc (def_add_employee σ) = Some d ∧
    heap (def_add_employee σ) !! d = Some [] ∧
    run add_employee (omitted es) (def_add_employee σ) = Some σ' ∧
    default_loc σ' = Some d ∧
    heap σ' !! d = Some es ∧
    dom (heap σ') = dom (heap (def_add_employee σ)) ∧
    printed_after (out (def_add_employee σ)) σ' = prefixes es ∧
    printed_length <$> printed_after (out (def_add_employee σ)) σ'
      = Some <$> seq 1 (length es).
Proof.
  destruct (def_add_employee_spec σ) as [Hfresh Hdef].
  set (d := fresh (dom (heap σ))) in *.
  assert (Hf : funcs (def_add_employee σ) !! "add_employee" = Some [PRef d]).
  { rewrite Hdef. simpl. by rewrite lookup_insert_eq. }
  assert (Hd : heap (def_add_employee σ) !! d = Some []).
  { rewrite Hdef. simpl. by rewrite lookup_insert_eq. }
  exists d. eexists. split; [done|].
  split; [by unfold default_loc; rewrite Hf|].
  split; [done|].
  split; [apply (run_add_employee_omitted es _ d [] Hf Hd)|].
  split; [by unfold default_loc; cbn [funcs]; rewrite Hf|].
  cbn [heap out]. split; [by rewrite lookup_insert_eq|].
  split.
  { rewrite dom_insert_L. apply subseteq_union_1_L, singleton_subseteq_l.
    by apply elem_of_dom_2 in Hd. }
  unfold printed_after. cbn [out]. rewrite drop_app_length.
  split; [done|].
  rewrite <- list_fmap_compose, <- seq_shift, <- list_fmap_compose.
  apply list_fmap_ext. intros i x Hx. simpl. f_equal.
  apply lookup_seq in Hx as [-> Hlt]. simpl in *.
  rewrite length_take. lia.
Qed.

(** *** The sentinel variant *)

Lemma add_employee_fixed_omitted σ e :
  funcs σ !! "add_employee_fixed" = Some [PNone] →
  add_employee_fixed e None σ =
    Some (State (<[fresh (dom (heap σ)) := [e]]> (heap σ)) (funcs σ)
                (out σ ++ [PrintList [e]])).
Proof.
  intros Hf. unfold add_employee_fixed, bind_emp_list.
  rewrite Hf. simpl. rewrite lookup_insert_eq. simpl.
  rewrite lookup_insert_eq. simpl. by rewrite insert_insert_eq.
Qed.

(** No call writes the function object. *)
Lemma add_employee_fixed_funcs σ σ' e arg :
  add_employee_fixed e arg σ = Some σ' → funcs σ' = funcs σ.
Proof.
  unfold add_employee_fixed, bind_emp_list, list_append, print_obj, alloc.
  intros H. repeat (simplify_option_eq || case_match); done.
Qed.

Lemma run_add_employee_fixed_funcs calls : ∀ σ σ',
  run add_employee_fixed calls σ = Some σ' → funcs σ' = funcs σ.
Proof.
  induction calls as [|[e arg] calls IH]; intros σ σ' H; simpl in H.
  - by injection H as <-.
  - destruct (add_employee_fixed e arg σ) as [σ1|] eqn:E; simpl in H; [|done].
    rewrite (IH _ _ H). by eapply add_employee_fixed_funcs.
Qed.

Lemma run_add_employee_fixed_omitted es : ∀ σ,
  funcs σ !! "add_employee_fixed" = Some [PNone] →
  ∃ σ', run add_employee_fixed (omitted es) σ = Some σ' ∧
        funcs σ' = funcs σ ∧
        out σ' = out σ ++ ((λ e, PrintList [e]) <$> es) ∧
        heap σ ⊆ heap σ' ∧
        size (heap σ') = size (heap σ) + length es.
Proof.
  induction es as [|e es IH]; intros σ Hf.
  - exists σ. simpl. rewrite app_nil_r. split_and!; [done..|lia].
  - simpl. rewrite (add_employee_fixed_omitted σ e Hf). simpl.
    edestruct (IH (State (<[fresh (dom (heap σ)) := [e]]> (heap σ)) (funcs σ)
                     (out σ ++ [PrintList [e]])))
      as (σ' & Hrun & Hfs & Hout & Hsub & Hsize); [done|].
    simpl in *. exists σ'. split_and!; [done|done|..].
    + by rewrite Hout, <- app_assoc.
    + etrans; [|exact Hsub]. apply insert_subseteq.
      apply not_elem_of_dom, is_fresh.
    + rewrite Hsize, map_size_insert_None; [lia|].
      apply not_elem_of_dom, is_fresh.
Qed.

(** Calls whose explicit lists exist never raise. *)
Lemma add_employee_fixed_total σ e arg :
  funcs σ !! "add_employee_fixed" = Some [PNone] →
  (∀ l, arg = Some l → l ∈ dom (heap σ)) →
  ∃ σ', add_employee_fixed e arg σ = Some σ' ∧ dom (heap σ) ⊆ dom (heap σ').
Proof.
  intros Hf Harg. destruct arg as [l|].
  - pose proof (Harg l eq_refl) as Hl. apply elem_of_dom in Hl as [xs Hxs].
    unfold add_employee_fixed. simpl. rewrite Hxs. simpl.
    rewrite lookup_insert_eq. simpl. eexists. split; [done|].
    simpl. rewrite dom_insert_L. set_solver.
  - rewrite (add_employee_fixed_omitted σ e Hf). eexists. split; [done|].
    simpl. rewrite dom_insert_L. set_solver.
Qed.

Lemma run_add_employee_fixed_total calls : ∀ σ,
  funcs σ !! "add_employee_fixed" = Some [PNone] →
  Forall (λ c, ∀ l, c.2 = Some l → l ∈ dom (heap σ)) calls →
  is_Some (run add_employee_fixed calls σ).
Proof.
  induction calls as [|[e arg] calls IH]; intros σ Hf Hall; simpl; [done|].
  apply Forall_cons in Hall as [Hc Hall].
  destruct (add_employee_fixed_total σ e arg Hf Hc) as (σ1 & E & Hdom).
  rewrite E. simpl. apply IH.
  - by rewrite (add_employee_fixed_funcs _ _ _ _ E).
  - eapply Forall_impl; [exact Hall|]. intros c Hin l Hl. apply Hdom. eauto.
Qed.

(** C7. After [def add_employee_fixed] and any sequence of calls, the
    stored default is still [(None,)]; from there every call that omits
    [emp_list] allocates a list that did not exist before and prints the
    one-element list holding its own employee, and so does every further
    run of such calls. *)
Theorem add_employee_fixed_fresh_list σ calls σ' :
  run add_employee_fixed calls (def_add_employee_fixed σ) = Some σ' →
  funcs σ' !! "add_employee_fixed" = Some [PNone] ∧
  (∀ e, (fresh (dom (heap σ')) ∉ dom (heap σ')) ∧
        add_employee_fixed e None σ' =
          Some (State (<[fresh (dom (heap σ')) := [e]]> (heap σ')) (funcs σ')
                      (out σ' ++ [PrintList [e]]))) ∧
  (∀ es, ∃ σ'', run add_employee_fixed (omitted es) σ' = Some σ'' ∧
        funcs σ'' !! "add_employee_fixed" = Some [PNone] ∧
        printed_after (out σ') σ'' = (λ e, PrintList [e]) <$> es ∧
        size (heap σ'') = size (heap σ') + length es).
Proof.
  intros Hrun.
  assert (Hf : funcs σ' !! "add_employee_fixed" = Some [PNone]).
  { rewrite (run_add_employee_fixed_funcs _ _ _ Hrun). simpl.
    by rewrite lookup_insert_eq. }
  split; [done|]. split.
  - intros e. split; [apply is_fresh|by apply add_employee_fixed_omitted].
  - intros es.
    destruct (run_add_employee_fixed_omitted es σ' Hf)
      as (σ'' & Hr & Hfs & Hout & _ & Hsize).
    exists σ''. split_and!; [done|by rewrite Hfs| |done].
    unfold printed_after. by rewrite Hout, drop_app_length.
Qed.
End Employees.

(** The calls of the script, lines 46-47, as an instance. *)
Lemma add_employee_fixed_fresh_list_witness :
  ∃ σ' : state string,
    run add_employee_fixed (omitted ["Aditya"; "Corey"])
        (def_add_employee_fixed init) = Some σ' ∧
    funcs σ' !! "add_employee_fixed" = Some [PNone].
Proof.
  destruct (run_add_employee_fixed_omitted (V:=string) ["Aditya"; "Corey"]
              (def_add_employee_fixed init)) as (σ' & Hrun & _).
  { reflexivity. }
  exists σ'. split; [exact Hrun|].
  exact (proj1 (add_employee_fixed_fresh_list init _ σ' Hrun)).
Defined.

End MutableDefaultsProofs.

(** ** Python strings *)

Module PyStrFacts.
Import PyStr.
Local Open Scope N_scope.

Ltac ascii_cases :=
  unfold is_ascii, ascii_lower, ascii_isalnum, ascii_isupper, ascii_islower,
    ascii_isdigit in *;
  repeat match goal with
    | |- context [?a <=? ?b] => destruct (N.leb_spec a b)
    | |- context [?a <? ?b] => destruct (N.ltb_spec a b)
    | |- context [?a =? ?b] => destruct (N.eqb_spec a b)
    | H : context [?a <=? ?b] |- _ => destruct (N.leb_spec a b)
    | H : context [?a <? ?b] |- _ => destruct (N.ltb_spec a b)
    end;
  simpl in *; try done; try lia.

Lemma ascii_lower_is_ascii c : is_ascii c = true → is_ascii (ascii_lower c) = true.
Proof. ascii_cases. Qed.

Lemma ascii_lower_not_upper c : ascii_isupper (ascii_lower c) = false.
Proof. ascii_cases. Qed.

Lemma ascii_lower_idemp c : ascii_lower (ascii_lower c) = ascii_lower c.
Proof. ascii_cases. Qed.

Lemma ascii_lower_underscore c : (ascii_lower c =? 95) = (c =? 95).
Proof. ascii_cases. Qed.

Lemma ascii_lower_isalnum c : ascii_isalnum (ascii_lower c) = ascii_isalnum c.
Proof. ascii_cases. Qed.

Lemma startswith_app p s : startswith p (p ++ s) = true.
Proof. induction p as [|c p IH]; simpl; [done|]. by rewrite N.eqb_refl. Qed.

(** [replace("_", "")] deletes the underscores and nothing else. *)
Lemma replace_char_filter s :
  replace_char 95 [] s = filter (λ c, c ≠ 95) s.
Proof.
  unfold replace_char. induction s as [|c s IH]; [done|].
  rewrite fmap_cons, filter_cons. simpl. rewrite IH.
  destruct (N.eqb_spec c 95); by case_decide.
Qed.

Lemma replace_char_fmap (f : char → char) s :
  (∀ c, (f c =? 95) = (c =? 95)) →
  replace_char 95 [] (f <$> s) = f <$> replace_char 95 [] s.
Proof.
  intros Hf. unfold replace_char. induction s as [|c s IH]; [done|].
  rewrite !fmap_cons. simpl. rewrite IH, Hf.
  by destruct (c =? 95).
Qed.

Lemma replace_char_ascii s :
  forallb is_ascii s = true → forallb is_ascii (replace_char 95 [] s) = true.
Proof.
  unfold replace_char. induction s as [|c s IH]; [done|].
  rewrite fmap_cons. simpl. intros [Hc Hs]%andb_true_iff.
  destruct (c =? 95); simpl; rewrite ?Hc; auto.
Qed.

Lemma excerpt_isalnum_ascii c :
  is_ascii c = true → excerpt_isalnum c = ascii_isalnum c.
Proof. intros Hc. unfold excerpt_isalnum. by rewrite Hc. Qed.

Lemma excerpt_lower_ascii s :
  forallb is_ascii s = true → excerpt_lower s = ascii_lower <$> s.
Proof.
  unfold excerpt_lower. induction s as [|c s IH]; [done|].
  intros Hs. cbn [forallb] in Hs. apply andb_true_iff in Hs as [Hc Hs].
  rewrite !fmap_cons.
  change (excerpt_lower_cp c ++ mjoin (excerpt_lower_cp <$> s) =
          ascii_lower c :: (ascii_lower <$> s)).
  rewrite (IH Hs). unfold excerpt_lower_cp. by rewrite Hc.
Qed.

(** The excerpt as a database. *)
#[export] Instance unicode_excerpt : UnicodeData := {|
  cp_isalnum := excerpt_isalnum;
  str_lower := excerpt_lower;
  cp_isalnum_ascii := excerpt_isalnum_ascii;
  str_lower_ascii := excerpt_lower_ascii
|}.

Section Database.
Context {U : UnicodeData}.

Lemma isalnum_spec s :
  isalnum s = true ↔ s ≠ [] ∧ Forall (λ c, cp_isalnum c = true) s.
Proof.
  unfold isalnum. rewrite andb_true_iff, forallb_forall, Forall_forall.
  setoid_rewrite list_elem_of_In.
  destruct s; simpl; split; intros [Ht Ha]; by split.
Qed.

Lemma isalnum_ascii_lower s :
  forallb is_ascii s = true → isalnum (ascii_lower <$> s) = isalnum s.
Proof.
  intros Hs. unfold isalnum. f_equal; [by destruct s|].
  induction s as [|c s IH]; [done|].
  cbn [forallb] in Hs. apply andb_true_iff in Hs as [Hc Hs].
  rewrite fmap_cons. cbn [forallb]. rewrite (IH Hs). f_equal.
  rewrite !cp_isalnum_ascii by auto using ascii_lower_is_ascii.
  apply ascii_lower_isalnum.
Qed.

Lemma fmap_ascii_lower_ascii s :
  forallb is_ascii s = true → forallb is_ascii (ascii_lower <$> s) = true.
Proof.
  induction s as [|c s IH]; [done|].
  intros Hs. cbn [forallb] in Hs. apply andb_true_iff in Hs as [Hc Hs].
  rewrite fmap_cons. cbn [forallb]. by rewrite ascii_lower_is_ascii, IH.
Qed.
End Database.

End PyStrFacts.

(** ** libraries/pydantic/05_custom_validator.py *)

Module CustomValidatorProofs.
Import PyStr PyStrFacts CustomValidator.

Lemma add_https_prefixed s :
  startswith_any [lit "http://"; lit "https://"] s = true →
  add_https (Some s) = Some s.
Proof. intros Hp. unfold add_https. by rewrite Hp, andb_false_r. Qed.

Lemma add_https_bare s :
  s ≠ [] →
  startswith_any [lit "http://"; lit "https://"] s = false →
  add_https (Some s) = Some (lit "https://" ++ s).
Proof. intros Hs Hp. unfold add_https. rewrite Hp. by destruct s. Qed.

Lemma https_prefixed s :
  startswith_any [lit "http://"; lit "https://"] (lit "https://" ++ s) = true.
Proof.
  unfold startswith_any. cbn [existsb].
  by rewrite startswith_app, orb_true_r.
Qed.

Lemma startswith_any_2 p q s :
  startswith_any [p; q] s = startswith p s || startswith q s.
Proof. unfold startswith_any. simpl. by rewrite orb_false_r. Qed.

(** C10. [add_https] is idempotent; it returns [None] and the empty string
    unchanged, returns unchanged a string that starts with http:// or
    https://, puts https:// in front of every other non-empty string, and
    every non-empty string it returns starts with one of the two. *)
Theorem add_https_idempotent :
  (∀ v, add_https (add_https v) = add_https v) ∧
  add_https None = None ∧
  add_https (Some []) = Some [] ∧
  (∀ s, startswith (lit "http://") s = true ∨ startswith (lit "https://") s = true →
        add_https (Some s) = Some s) ∧
  (∀ s, s ≠ [] →
        startswith (lit "http://") s = false →
        startswith (lit "https://") s = false →
        add_https (Some s) = Some (lit "https://" ++ s)) ∧
  (∀ s, ∃ r, add_https (Some s) = Some r ∧
        (r ≠ [] → startswith (lit "http://") r = true ∨
                  startswith (lit "https://") r = true)).
Proof.
  assert (Hcases : ∀ s,
    (s = [] ∧ add_https (Some s) = Some s) ∨
    (startswith_any [lit "http://"; lit "https://"] s = true ∧
       add_https (Some s) = Some s) ∨
    (add_https (Some s) = Some (lit "https://" ++ s))).
  { intros s. destruct s as [|c s]; [by left|].
    destruct (startswith_any [lit "http://"; lit "https://"] (c :: s)) eqn:Hp.
    - right; left. split; [done|]. by apply add_https_prefixed.
    - right; right. by apply add_https_bare. }
  split_and!.
  - intros [s|]; [|done].
    destruct (Hcases s) as [[_ E]|[[_ E]|E]]; rewrite E; [done..|].
    apply add_https_prefixed, https_prefixed.
  - done.
  - done.
  - intros s Hp. apply add_https_prefixed. rewrite startswith_any_2.
    destruct Hp as [-> | ->]; by rewrite ?orb_true_r.
  - intros s Hs H1 H2. apply add_https_bare; [done|].
    by rewrite startswith_any_2, H1, H2.
  - intros s. destruct (Hcases s) as [[-> E]|[[Hp E]|E]]; rewrite E; eexists; (split; [done|]).
    + done.
    + intros _. rewrite startswith_any_2 in Hp. by apply orb_true_iff in Hp.
    + intros _. right. apply startswith_app.
Qed.

(** The website of the script's valid user, line 83. *)
Lemma add_https_idempotent_witness :
  add_https (Some (lit "aditya.com")) = Some (lit "https://aditya.com") ∧
  add_https (add_https (Some (lit "aditya.com"))) = add_https (Some (lit "aditya.com")).
Proof.
  destruct add_https_idempotent as (Hidem & _ & _ & _ & Hbare & _).
  split; [|apply Hidem].
  apply (Hbare (lit "aditya.com")); [discriminate|reflexivity|reflexivity].
Defined.


Section Username.
Context {U : UnicodeData}.

Lemma isalnum_stripped v :
  isalnum (replace_char 95 [] v) = true ↔ accepts_spec v.
Proof. unfold accepts_spec. by rewrite replace_char_filter, isalnum_spec. Qed.

Lemma validate_username_accepted v :
  accepts_spec v ↔ validate_username v = Ok (str_lower v).
Proof.
  rewrite <- isalnum_stripped. unfold validate_username.
  destruct (isalnum (replace_char 95 [] v)); simpl; split; done.
Qed.

Lemma validate_username_rejected v :
  ¬ accepts_spec v ↔ validate_username v = Raise username_error.
Proof.
  rewrite <- isalnum_stripped. unfold validate_username.
  destruct (isalnum (replace_char 95 [] v)); simpl; split; done.
Qed.

Lemma underscores_not_accepted n : ¬ accepts_spec (replicate n 95%N).
Proof.
  intros [Hne _]. apply Hne. clear Hne.
  induction n as [|n IH]; [done|].
  simpl. rewrite filter_cons. by case_decide.
Qed.

(** On ASCII input an accepted username comes back in ASCII, without
    capitals, and is a fixed point of the validator. *)
Lemma validate_username_ascii v r :
  forallb is_ascii v = true →
  validate_username v = Ok r →
  forallb is_ascii r = true ∧
  forallb (λ c, negb (ascii_isupper c)) r = true ∧
  validate_username r = Ok r.
Proof.
  intros Hv. unfold validate_username.
  destruct (isalnum (replace_char 95 [] v)) eqn:Hal; simpl; [|done].
  rewrite (str_lower_ascii v Hv). intros [= <-].
  pose proof (fmap_ascii_lower_ascii v Hv) as Hr.
  split; [done|]. split.
  - clear. induction v as [|c v IH]; [done|].
    rewrite fmap_cons. cbn [forallb].
    by rewrite ascii_lower_not_upper, IH.
  - rewrite (replace_char_fmap _ _ ascii_lower_underscore).
    rewrite isalnum_ascii_lower by by apply replace_char_ascii.
    rewrite Hal. simpl. f_equal.
    rewrite (str_lower_ascii _ Hr), <- list_fmap_compose.
    apply list_fmap_ext. intros i c _. apply ascii_lower_idemp.
Qed.

(** C9, amended.  [validate_username] accepts [v] exactly when [v] with the
    underscores removed is non-empty and alphanumeric, and then returns
    [v.lower()]; the empty string and strings of underscores are rejected
    with the ValueError; an accepted ASCII username comes back without
    capitals and validating it again returns it unchanged. *)
Theorem validate_username_spec :
  (∀ v, accepts_spec v ↔ validate_username v = Ok (str_lower v)) ∧
  (∀ v, ¬ accepts_spec v ↔ validate_username v = Raise username_error) ∧
  (∀ n, validate_username (replicate n 95%N) = Raise username_error) ∧
  (∀ v r, forallb is_ascii v = true →
          validate_username v = Ok r →
          forallb is_ascii r = true ∧
          forallb (λ c, negb (ascii_isupper c)) r = true ∧
          validate_username r = Ok r).
Proof.
  split_and!.
  - apply validate_username_accepted.
  - apply validate_username_rejected.
  - intros n. apply validate_username_rejected, underscores_not_accepted.
  - apply validate_username_ascii.
Qed.
End Username.

(** The username of the script's valid user, line 79. *)
Lemma validate_username_spec_witness :
  validate_username (lit "Aditya_Pm") = Ok (lit "aditya_pm") ∧
  validate_username (lit "aditya_pm") = Ok (lit "aditya_pm").
Proof.
  split; [reflexivity|].
  destruct (validate_username_spec (U:=unicode_excerpt)) as (_ & _ & _ & Hascii).
  apply (Hascii (lit "Aditya_Pm") (lit "aditya_pm")); reflexivity.
Defined.

(** C9 as stated fails outside ASCII: "İpek" (U+0130 p e k) is accepted and
    returned as "i̇pek" (i U+0307 p e k), which the validator rejects, since
    the combining dot is not alphanumeric. *)
Lemma validate_username_not_idempotent :
  validate_username [304; 112; 101; 107]%N = Ok [105; 775; 112; 101; 107]%N ∧
  validate_username [105; 775; 112; 101; 107]%N = Raise username_error.
Proof. split; reflexivity. Qed.

End CustomValidatorProofs.

(** ** frameworks/fastapi *)

Module FastAPIRoutingProofs.
Import FastAPIRouting.

Lemma basic_app_routes :
  basic_app =
    [ Route "/" basic_home JSONResponse true;
      Route "/info" basic_about HTMLResponse true;
      Route "/about" basic_about HTMLResponse true ].
Proof. reflexivity. Qed.


Lemma match_route_Some a p :
  is_Some (match_route a p) ↔ p ∈ paths a.
Proof.
  unfold match_route, paths. rewrite list_elem_of_fmap. split.
  - intros [r Hr].
    destruct (list_find (λ r, path r = p) a) as [[i r']|] eqn:E; [|done].
    apply list_find_Some in E as (Hi & Hp & _).
    exists r'. split; [done|]. by eapply list_elem_of_lookup_2.
  - intros (r & -> & Hin).
    destruct (list_find_elem_of (λ r', path r' = path r) a r Hin eq_refl)
      as [[i r'] ->].
    by eexists.
Qed.

(** C4 as stated fails: concepts/00_basic.py registers a third path,
    "/about", which is neither the root path nor the info path. *)
Lemma basic_app_not_two_paths :
  ¬ (∀ p, p ∈ paths basic_app ↔ p = "/" ∨ p = "/info").
Proof.
  intros Hc. destruct (Hc "/about") as [Habout _].
  assert (Hin : "/about" ∈ paths basic_app).
  { unfold paths. rewrite basic_app_routes. simpl.
    rewrite !elem_of_cons. auto. }
  destruct (Habout Hin); discriminate.
Qed.

(** C4, amended.  concepts/00_basic.py registers exactly three paths served
    by two path operation functions: "/" answers with a dict whose only key
    is "message", and "/info" and "/about" both answer with the same HTML
    fragment; every other path has no route.  fastapi_blog/main.py registers
    "/posts", "/" and "/api/posts". *)
Theorem basic_app_endpoints :
  (∀ p, is_Some (serve basic_app p) ↔ p = "/" ∨ p = "/info" ∨ p = "/about") ∧
  operations basic_app = [basic_home; basic_about] ∧
  serve basic_app "/" = Some (JSONResponse, call basic_home) ∧
  keys (call basic_home) = ["message"] ∧
  serve basic_app "/info" =
    Some (HTMLResponse, Text "<h1>This is the HTML response page</h1>") ∧
  serve basic_app "/about" = serve basic_app "/info" ∧
  paths basic_app = ["/"; "/info"; "/about"] ∧
  paths blog_app = ["/posts"; "/"; "/api/posts"].
Proof.
  split_and!; try reflexivity.
  intros p. transitivity (is_Some (match_route basic_app p)).
  { unfold serve. destruct (match_route basic_app p); simpl.
    - split; intros _; by eexists.
    - split; intros [? ?]; discriminate. }
  rewrite match_route_Some. unfold paths. rewrite basic_app_routes. simpl.
  rewrite !elem_of_cons, elem_of_nil. tauto.
Qed.

End FastAPIRoutingProofs.

(** ** Regular expressions over code points *)

Module RegexFacts.
Import PyStr Regex.

Lemma nullable_spec r : nullable r = true ↔ matches r [].
Proof.
  split.
  - induction r as [| |rs|r1 IH1 r2 IH2|r1 IH1 r2 IH2|r IH]; simpl; intros Hn;
      try discriminate.
    + constructor.
    + apply andb_true_iff in Hn as [H1 H2].
      apply (matches_cat r1 r2 [] []); auto.
    + apply orb_true_iff in Hn as [H1|H2];
        [apply matches_alt_l | apply matches_alt_r]; auto.
    + constructor.
  - induction r as [| |rs|r1 IH1 r2 IH2|r1 IH1 r2 IH2|r IH]; simpl; intros Hm;
      inversion Hm; subst; try done.
    + match goal with H : _ ++ _ = [] |- _ => apply app_eq_nil in H as [-> ->] end.
      by rewrite IH1, IH2.
    + by rewrite IH1.
    + rewrite IH2 by done. apply orb_true_r.
Qed.

(** A non-empty match of [r*] starts with a non-empty match of [r]. *)
Lemma matches_star_cons r c s :
  matches (Star r) (c :: s) →
  ∃ s1 s2, s = s1 ++ s2 ∧ matches r (c :: s1) ∧ matches (Star r) s2.
Proof.
  intros Hm. remember (Star r) as r' eqn:Hr. remember (c :: s) as s' eqn:Hs.
  revert s Hs.
  induction Hm as [| | | | | |r0 s1 s2 H1 _ H2 IH2]; intros t Ht; try discriminate.
  injection Hr as ->.
  destruct s1 as [|c1 s1]; simpl in Ht.
  - by apply IH2.
  - injection Ht as -> <-. by exists s1, s2.
Qed.

Lemma deriv_spec c r : ∀ s, matches (deriv c r) s ↔ matches r (c :: s).
Proof.
  induction r as [| |rs|r1 IH1 r2 IH2|r1 IH1 r2 IH2|r IH]; intros s; simpl.
  - split; intros Hm; inversion Hm.
  - split; intros Hm; inversion Hm.
  - destruct (in_class rs c) eqn:Hc; split; intros Hm; inversion Hm; subst.
    + by constructor.
    + constructor.
    + congruence.
  - assert (Hcons : ∀ s1 s2,
        matches (deriv c r1) s1 → matches r2 s2 → matches (Cat r1 r2) (c :: s1 ++ s2)).
    { intros s1 s2 H1 H2. apply (matches_cat r1 r2 (c :: s1) s2); [|done].
      by apply IH1. }
    assert (Hinv : matches (Cat r1 r2) (c :: s) →
        (∃ s1 s2, s = s1 ++ s2 ∧ matches (deriv c r1) s1 ∧ matches r2 s2) ∨
        (nullable r1 = true ∧ matches (deriv c r2) s)).
    { intros Hm. inversion Hm as [| |? ? s1 s2 H1 H2 Hr Hs| | | |]; subst.
      destruct s1 as [|c1 s1]; simpl in Hs.
      - right. subst s2. split; [by apply nullable_spec|by apply IH2].
      - injection Hs as -> <-. left. exists s1, s2. split; [done|].
        split; [by apply IH1|done]. }
    destruct (nullable r1) eqn:Hn; split; intros Hm.
    + inversion Hm as [| | |? ? ? Hl|? ? ? Hr| |]; subst.
      * inversion Hl; subst. by apply Hcons.
      * apply (matches_cat r1 r2 [] (c :: s)); [by apply nullable_spec|by apply IH2].
    + destruct (Hinv Hm) as [(s1 & s2 & -> & H1 & H2)|[_ H2]].
      * apply matches_alt_l. by constructor.
      * by apply matches_alt_r.
    + inversion Hm; subst. by apply Hcons.
    + destruct (Hinv Hm) as [(s1 & s2 & -> & H1 & H2)|[? _]]; [|done].
      by constructor.
  - split; intros Hm; inversion Hm; subst.
    + apply matches_alt_l. by apply IH1.
    + apply matches_alt_r. by apply IH2.
    + apply matches_alt_l. by apply IH1.
    + apply matches_alt_r. by apply IH2.
  - split; intros Hm.
    + inversion Hm; subst.
      match goal with
      | H1 : matches (deriv c r) ?s1, H2 : matches (Star r) ?s2 |- _ =>
          apply (matches_star_app r (c :: s1) s2); [by apply IH|done]
      end.
    + apply matches_star_cons in Hm as (s1 & s2 & -> & H1 & H2).
      constructor; [by apply IH|done].
Qed.

(** The matcher decides the denotation. *)
Lemma fullmatch_spec r s : fullmatch r s = true ↔ matches r s.
Proof.
  revert r. induction s as [|c s IH]; intros r; simpl.
  - apply nullable_spec.
  - by rewrite IH, deriv_spec.
Qed.

End RegexFacts.

(** ** libraries/pydantic/03_annotated.py *)

Module PydanticAnnotatedProofs.
Import PyStr Regex RegexFacts PydanticAnnotated.

Lemma uid_field_spec u :
  first_error check_int uid_field (uid u) = None ↔ uid_ok u.
Proof.
  unfold uid_ok, uid_field. cbn [first_error check_int].
  destruct (Z.ltb_spec 0 (uid u)); split; (done || lia).
Qed.

Lemma username_field_spec u :
  first_error check_str username_field (username u) = None ↔ username_ok u.
Proof.
  unfold username_ok, username_field. cbn [first_error check_str].
  destruct (Nat.leb_spec 3 (length (username u)));
    destruct (Nat.leb_spec (length (username u)) 20); split; (done || lia).
Qed.

Lemma email_field_spec u :
  first_error check_str email_field (email u) = None ↔ email_ok u.
Proof.
  unfold email_ok, email_field. cbn [first_error check_str].
  rewrite <- fullmatch_spec.
  destruct (fullmatch email_pattern (email u)); split; done.
Qed.

Lemma age_field_spec u :
  first_error check_int age_field (age u) = None ↔ age_ok u.
Proof.
  unfold age_ok, age_field. cbn [first_error check_int].
  destruct (Z.leb_spec 13 (age u)); destruct (Z.leb_spec (age u) 130);
    split; (done || lia).
Qed.

Lemma line_nil loc e : line loc e = [] ↔ e = None.
Proof. destruct e; split; done. Qed.

Lemma elem_of_line loc loc' e :
  loc' ∈ (line loc e).*1 ↔ loc' = loc ∧ e ≠ None.
Proof.
  destruct e as [t|]; simpl.
  - rewrite list_elem_of_singleton. split; [by intros ->|by intros [-> _]].
  - rewrite elem_of_nil. split; [done|by intros [_ ?]].
Qed.

(** X9. Validation succeeds exactly on the users that meet all four
    annotations, and then returns the user as given. *)
Lemma User_validate_valid u :
  User_validate u = Valid u ↔ uid_ok u ∧ username_ok u ∧ email_ok u ∧ age_ok u.
Proof.
  rewrite <- uid_field_spec, <- username_field_spec, <- email_field_spec,
    <- age_field_spec.
  unfold User_validate.
  destruct (first_error check_int uid_field (uid u));
    destruct (first_error check_str username_field (username u));
    destruct (first_error check_str email_field (email u));
    destruct (first_error check_int age_field (age u)); simpl;
    split; (done || by intros (? & ? & ? & ?)).
Qed.

(** X10. A field has an error line exactly when its own annotation is
    violated, whatever the other fields hold. *)
Lemma User_validate_reports_every_field u :
  let locs := (errors_of (User_validate u)).*1 in
  ("uid" ∈ locs ↔ ¬ uid_ok u) ∧
  ("username" ∈ locs ↔ ¬ username_ok u) ∧
  ("email" ∈ locs ↔ ¬ email_ok u) ∧
  ("age" ∈ locs ↔ ¬ age_ok u).
Proof.
  intros locs.
  assert (Hlocs : locs =
    (line "uid" (first_error check_int uid_field (uid u)) ++
     line "username" (first_error check_str username_field (username u)) ++
     line "email" (first_error check_str email_field (email u)) ++
     line "age" (first_error check_int age_field (age u))).*1).
  { unfold locs, User_validate.
    by destruct (_ ++ _). }
  rewrite Hlocs, !fmap_app.
  rewrite <- uid_field_spec, <- username_field_spec, <- email_field_spec,
    <- age_field_spec.
  split_and!; rewrite !elem_of_app, !elem_of_line;
    (split; [intros [[? ?]|[[? ?]|[[? ?]|[? ?]]]]; done | auto 6]).
Qed.

(** C2. Validating the user of lines 23-29 raises one ValidationError with
    exactly three lines, for uid, username and age, in that order; the
    e-mail address matches the pattern and gets no line. *)
Theorem invalid_user_three_errors :
  User_validate invalid_user =
    ValidationError "User"
      [ ("uid", greater_than);
        ("username", string_too_short);
        ("age", greater_than_equal) ] ∧
  length (errors_of (User_validate invalid_user)) = 3 ∧
  ¬ uid_ok invalid_user ∧ ¬ username_ok invalid_user ∧
  email_ok invalid_user ∧ ¬ age_ok invalid_user.
Proof.
  split_and!.
  - reflexivity.
  - reflexivity.
  - unfold uid_ok. simpl. lia.
  - unfold username_ok. simpl. lia.
  - apply fullmatch_spec. reflexivity.
  - unfold age_ok. simpl. lia.
Qed.

End PydanticAnnotatedProofs.

(** ** libraries/concurrent_futures/processpool_01_pickle.py *)

Module ProcessPoolPickleProofs.
Import ProcessPoolPickle.

(** A function bound at module level under its own name round-trips. *)
Lemma pickle_function_top_level ns name f :
  qualname f = [name] →
  name ≠ "<locals>" →
  ns !! name = Some (Func f) →
  pickle_function ns f = Ok name.
Proof.
  intros Hq Hname Hns. unfold pickle_function. rewrite Hq, Hns.
  rewrite bool_decide_eq_false_2.
  - by rewrite bool_decide_eq_true_2.
  - rewrite list_elem_of_singleton. congruence.
Qed.

(** A function created inside another function cannot be pickled, in any
    namespace. *)
Lemma pickle_function_local ns f :
  "<locals>" ∈ qualname f →
  pickle_function ns f = Raise (PickleFailure (qualname f)).
Proof. intros Hq. unfold pickle_function. by rewrite bool_decide_eq_true_2. Qed.

Lemma submit_local ns f arg :
  "<locals>" ∈ qualname f →
  outcome (submit ns f arg) = Raise (PickleFailure (qualname f)).
Proof. intros Hq. unfold submit. simpl. by rewrite pickle_function_local. Qed.

(** With a module-level function and integer arguments the pool computes
    what the function computes. *)
Lemma results_top_level ns name f (ns_args : list Z) :
  qualname f = [name] →
  name ≠ "<locals>" →
  ns !! name = Some (Func f) →
  results (submit ns f <$> (Int <$> ns_args)) = map_code f (Int <$> ns_args).
Proof.
  intros Hq Hname Hns. induction ns_args as [|n args IH]; [done|].
  rewrite !fmap_cons. cbn [results map_code]. rewrite IH.
  unfold submit at 1. cbn [outcome].
  rewrite (pickle_function_top_level ns name f Hq Hname Hns).
  cbn [bind pickle_value]. unfold worker. by rewrite Hns.
Qed.

(** With a local function the first [result()] already raises. *)
Lemma results_local ns f arg args :
  "<locals>" ∈ qualname f →
  results (submit ns f <$> arg :: args) = Raise (PickleFailure (qualname f)).
Proof.
  intros Hq. rewrite fmap_cons. cbn [results].
  by rewrite (submit_local ns f arg Hq).
Qed.

(** C3. In [main] the pool block with [top_level_task] prints the results
    [0, 1, 4, 9, 16] and the block with [compute] on [Picklable(0..4)]
    prints [0, 2, 4, 6, 8]; the blocks with the nested function and with
    the lambda raise a serialization failure, which the script catches and
    prints in place of results; [main] itself returns normally. *)
Theorem main_output :
  main [] =
    ([ Text "=== Top-level function (works) ===";
       Results [Int 0; Int 1; Int 4; Int 9; Int 16];
       Text "=== Nested function (fails) ===";
       Caught (PickleFailure ["main"; "<locals>"; "nested_task"]);
       Text "=== Lambda function (fails) ===";
       Caught (PickleFailure ["main"; "<locals>"; "<lambda>"]);
       Text "=== Picklable object as argument (works) ===";
       Results [Int 0; Int 2; Int 4; Int 6; Int 8];
       Text "Demo complete. Always use picklable top-level functions for ProcessPoolExecutor tasks." ],
     Ok tt) ∧
  results (submit module top_level_task <$> (Int <$> range 5))
    = Ok [Int 0; Int 1; Int 4; Int 9; Int 16] ∧
  results (submit module compute <$> (Picklable <$> range 5))
    = Ok [Int 0; Int 2; Int 4; Int 6; Int 8] ∧
  results (submit module nested_task <$> (Int <$> range 5))
    = Raise (PickleFailure (qualname nested_task)) ∧
  results (submit module lambda_task <$> (Int <$> range 5))
    = Raise (PickleFailure (qualname lambda_task)).
Proof.
  assert (Hlocal : ∀ f, "<locals>" ∈ qualname f →
            results (submit module f <$> (Int <$> range 5))
              = Raise (PickleFailure (qualname f))).
  { intros f Hf. apply (results_local module f (Int 0)). exact Hf. }
  split_and!.
  - vm_compute. reflexivity.
  - rewrite (results_top_level module "top_level_task"); done.
  - vm_compute. reflexivity.
  - apply Hlocal. simpl. rewrite !elem_of_cons. auto.
  - apply Hlocal. simpl. rewrite !elem_of_cons. auto.
Qed.

End ProcessPoolPickleProofs.

(** ** concepts/mutable_default_arguments.py: runs of calls and the clock *)

Module MutableDefaultsRunsProofs.
Import MutableDefaults MutableDefaultsProofs MutableDefaultsRuns.

Section Runs.
Context {V : Type}.
Implicit Types (σ : state V) (es xs ys : list V) (e : V) (d l : loc).
Implicit Types (calls : list (V * option loc)) (arg : option loc).

(** One call, with or without the argument, appends to the bound object. *)
Lemma add_employee_bound σ d arg ys e :
  funcs σ !! "add_employee" = Some [PRef d] →
  heap σ !! default d arg = Some ys →
  add_employee e arg σ =
    Some (State (<[default d arg := ys ++ [e]]> (heap σ)) (funcs σ)
                (out σ ++ [PrintList (ys ++ [e])])).
Proof.
  intros Hf Hb. destruct arg as [l|]; simpl in Hb.
  - unfold add_employee. simpl. rewrite Hb. simpl.
    by rewrite lookup_insert_eq.
  - by apply add_employee_omitted.
Qed.

Lemma received_cons d l e arg calls :
  received d l ((e, arg) :: calls) =
    if decide (default d arg = l) then e :: received d l calls
    else received d l calls.
Proof. unfold received. rewrite filter_cons. simpl. by case_decide. Qed.

(** X1. In any run of [add_employee] calls whose explicit lists exist,
    no call raises and none allocates; every list object ends with what it
    held before followed by the employees of the calls bound to it, in call
    order, where a call without [emp_list] is bound to the default object,
    also when other calls pass that same object explicitly. *)
Theorem add_employee_run calls : ∀ σ d,
  funcs σ !! "add_employee" = Some [PRef d] →
  d ∈ dom (heap σ) →
  Forall (λ c, ∀ l, snd c = Some l → l ∈ dom (heap σ)) calls →
  ∃ σ', run add_employee calls σ = Some σ' ∧
        funcs σ' = funcs σ ∧
        dom (heap σ') = dom (heap σ) ∧
        ∀ l xs, heap σ !! l = Some xs →
                heap σ' !! l = Some (xs ++ received d l calls).
Proof.
  induction calls as [|[e arg] calls IH]; intros σ d Hf Hd Hall.
  - exists σ. split_and!; [done..|]. intros l xs Hl.
    unfold received. simpl. by rewrite app_nil_r.
  - apply Forall_cons in Hall as [Harg Hall]. simpl in Harg.
    assert (Hb : default d arg ∈ dom (heap σ)).
    { destruct arg as [l|]; simpl; [by apply Harg|done]. }
    apply elem_of_dom in Hb as [ys Hys].
    simpl. rewrite (add_employee_bound σ d arg ys e Hf Hys). simpl.
    set (σ1 := State (<[default d arg := ys ++ [e]]> (heap σ)) (funcs σ)
                     (out σ ++ [PrintList (ys ++ [e])])).
    assert (Hdom : dom (heap σ1) = dom (heap σ)).
    { simpl. rewrite dom_insert_L.
      apply subseteq_union_1_L, singleton_subseteq_l. by apply elem_of_dom. }
    destruct (IH σ1 d) as (σ' & Hrun & Hfs & Hdom' & Hheap).
    + done.
    + by rewrite Hdom.
    + by rewrite Hdom.
    + exists σ'. split_and!; [done|done|by rewrite Hdom'|].
      intros l xs Hl. rewrite received_cons. case_decide as Hdec.
      * subst l. rewrite Hys in Hl. injection Hl as <-.
        rewrite (Hheap (default d arg) (ys ++ [e])).
        -- by rewrite <- app_assoc.
        -- simpl. by rewrite lookup_insert_eq.
      * apply Hheap. simpl. by rewrite lookup_insert_ne.
Qed.

Lemma passed_to_cons l e arg calls :
  passed_to l ((e, arg) :: calls) =
    if decide (arg = Some l) then e :: passed_to l calls
    else passed_to l calls.
Proof. unfold passed_to. rewrite filter_cons. simpl. by case_decide. Qed.

(** X2. In any run of [add_employee_fixed] calls whose explicit lists
    exist, no call raises; a list that existed before ends with its old
    contents followed by the employees of exactly the calls that passed
    it, so calls without [emp_list] change no existing list. *)
Theorem add_employee_fixed_run calls : ∀ σ,
  funcs σ !! "add_employee_fixed" = Some [PNone] →
  Forall (λ c, ∀ l, snd c = Some l → l ∈ dom (heap σ)) calls →
  ∃ σ', run add_employee_fixed calls σ = Some σ' ∧
        funcs σ' = funcs σ ∧
        ∀ l xs, heap σ !! l = Some xs →
                heap σ' !! l = Some (xs ++ passed_to l calls).
Proof.
  induction calls as [|[e arg] calls IH]; intros σ Hf Hall.
  - exists σ. split_and!; [done..|]. intros l xs Hl.
    unfold passed_to. simpl. by rewrite app_nil_r.
  - apply Forall_cons in Hall as [Harg Hall]. simpl in Harg.
    destruct arg as [b|].
    + pose proof (Harg b eq_refl) as Hb. apply elem_of_dom in Hb as [ys Hys].
      assert (Hstep : add_employee_fixed e (Some b) σ =
        Some (State (<[b := ys ++ [e]]> (heap σ)) (funcs σ)
                    (out σ ++ [PrintList (ys ++ [e])]))).
      { unfold add_employee_fixed. simpl. rewrite Hys. simpl.
        by rewrite lookup_insert_eq. }
      simpl. rewrite Hstep. simpl.
      edestruct (IH (State (<[b := ys ++ [e]]> (heap σ)) (funcs σ)
                       (out σ ++ [PrintList (ys ++ [e])])))
        as (σ' & Hrun & Hfs & Hheap); [done| |].
      { eapply Forall_impl; [exact Hall|]. intros c Hc l Hl. simpl.
        rewrite dom_insert_L. apply elem_of_union_r. eauto. }
      exists σ'. split_and!; [done|done|].
      intros l xs Hl. rewrite passed_to_cons. case_decide as Hdec.
      * injection Hdec as ->. rewrite Hys in Hl. injection Hl as <-.
        rewrite (Hheap l (ys ++ [e])).
        -- by rewrite <- app_assoc.
        -- simpl. by rewrite lookup_insert_eq.
      * apply Hheap. simpl. rewrite lookup_insert_ne; [done|congruence].
    + simpl. rewrite (add_employee_fixed_omitted σ e Hf). simpl.
      edestruct (IH (State (<[fresh (dom (heap σ)) := [e]]> (heap σ)) (funcs σ)
                       (out σ ++ [PrintList [e]])))
        as (σ' & Hrun & Hfs & Hheap); [done| |].
      { eapply Forall_impl; [exact Hall|]. intros c Hc l Hl. simpl.
        rewrite dom_insert_L. apply elem_of_union_r. eauto. }
      exists σ'. split_and!; [done|done|].
      intros l xs Hl. rewrite passed_to_cons. case_decide as Hdec; [done|].
      apply Hheap. simpl. rewrite lookup_insert_ne; [done|].
      intros <-. apply elem_of_dom_2 in Hl. by apply is_fresh in Hl.
Qed.

(** X3. After a run of [add_employee_fixed] calls without [emp_list], every
    list object either existed before with the same contents or is new and
    holds one employee of the run: no two calls share a list. *)
Theorem add_employee_fixed_singletons es : ∀ σ σ',
  funcs σ !! "add_employee_fixed" = Some [PNone] →
  run add_employee_fixed (omitted es) σ = Some σ' →
  ∀ l xs, heap σ' !! l = Some xs →
    heap σ !! l = Some xs ∨ (heap σ !! l = None ∧ ∃ e, e ∈ es ∧ xs = [e]).
Proof.
  induction es as [|e es IH]; intros σ σ' Hf Hrun l xs Hl.
  - simpl in Hrun. injection Hrun as <-. by left.
  - simpl in Hrun. rewrite (add_employee_fixed_omitted σ e Hf) in Hrun.
    simpl in Hrun.
    assert (Hnew : heap σ !! fresh (dom (heap σ)) = None).
    { apply not_elem_of_dom, is_fresh. }
    pose proof (λ H, IH _ σ' H Hrun l xs Hl) as IH'.
    destruct (IH' Hf) as [H1|[H1 (e' & He' & ->)]]; simpl in H1.
    + destruct (decide (l = fresh (dom (heap σ)))) as [->|Hne].
      * rewrite lookup_insert_eq in H1. injection H1 as <-.
        right. split; [done|]. exists e. split; [apply list_elem_of_here|done].
      * rewrite lookup_insert_ne in H1 by done. by left.
    + right. destruct (decide (l = fresh (dom (heap σ)))) as [->|Hne].
      * by rewrite lookup_insert_eq in H1.
      * rewrite lookup_insert_ne in H1 by done. split; [done|].
        exists e'. split; [by apply list_elem_of_further|done].
Qed.
End Runs.

(** The calls of the script, lines 11-26: the list [emps] passed once, the
    argument omitted three times. *)
Lemma add_employee_run_witness :
  let σ := (alloc ["John"; "Jane"] (def_add_employee init)).2 in
  let calls := [("Aditya", Some 2%positive); ("Corey", None);
                ("Casey", None); ("Jack", None)] in
  ∃ σ', run add_employee calls σ = Some σ' ∧
        heap σ' !! 1%positive = Some ([] ++ received 1 1 calls) ∧
        heap σ' !! 2%positive = Some (["John"; "Jane"] ++ received 1 2 calls).
Proof.
  intros σ calls.
  destruct (add_employee_run calls σ 1%positive) as (σ' & Hrun & _ & _ & Hheap).
  - reflexivity.
  - apply elem_of_dom. by eexists.
  - repeat constructor; simpl; intros l [= <-]; apply elem_of_dom; by eexists.
  - exists σ'. split; [exact Hrun|].
    split; apply Hheap; reflexivity.
Defined.

Lemma add_employee_fixed_run_witness :
  let σ := (alloc ["John"; "Jane"] (def_add_employee_fixed init)).2 in
  let calls := [("Aditya", None); ("Casey", Some 1%positive); ("Corey", None)] in
  ∃ σ', run add_employee_fixed calls σ = Some σ' ∧
        heap σ' !! 1%positive = Some (["John"; "Jane"] ++ passed_to 1 calls).
Proof.
  intros σ calls.
  destruct (add_employee_fixed_run calls σ) as (σ' & Hrun & _ & Hheap).
  - reflexivity.
  - repeat constructor; simpl; try done; intros l [= <-]; apply elem_of_dom; by eexists.
  - exists σ'. split; [exact Hrun|]. apply Hheap. reflexivity.
Defined.

(** The two calls of the script, lines 46-47, and the list of the second. *)
Lemma add_employee_fixed_singletons_witness :
  heap (def_add_employee_fixed (V:=string) init) !! 2%positive = Some ["Corey"] ∨
  (heap (def_add_employee_fixed (V:=string) init) !! 2%positive = None ∧
   ∃ e, e ∈ ["Aditya"; "Corey"] ∧ ["Corey"] = [e]).
Proof.
  apply (add_employee_fixed_singletons ["Aditya"; "Corey"]
           (def_add_employee_fixed init)
           (State {[1%positive := ["Aditya"]; 2%positive := ["Corey"]]}
                  {["add_employee_fixed" := [PNone]]}
                  [PrintList ["Aditya"]; PrintList ["Corey"]])).
  - reflexivity.
  - vm_compute. reflexivity.
  - reflexivity.
Defined.

(** *** The clock *)

Lemma display_time_omitted σ t0 :
  time_defaults σ !! "display_time" = Some (Some t0) →
  display_time None σ =
    Some (ClockState (now σ) (time_defaults σ) (shown σ ++ [t0])).
Proof. intros Hd. unfold display_time, bind_time. by rewrite Hd. Qed.


Lemma exec_all_display_time sts : ∀ σ t0,
  time_defaults σ !! "display_time" = Some (Some t0) →
  ∃ σ', exec_all display_time sts σ = Some σ' ∧
        time_defaults σ' = time_defaults σ ∧
        shown σ' = shown σ ++ replicate (length (call_times (now σ) sts)) t0.
Proof.
  induction sts as [|[|dt] sts IH]; intros σ t0 Hd.
  - exists σ. simpl. by rewrite app_nil_r.
  - cbn [exec_all exec call_times]. rewrite (display_time_omitted σ t0 Hd).
    cbn [mbind option_bind].
    edestruct (IH (ClockState (now σ) (time_defaults σ) (shown σ ++ [t0])))
      as (σ' & Hrun & Hds & Hshown); [done|].
    exists σ'. split_and!; [done|done|]. rewrite Hshown. simpl.
    by rewrite <- app_assoc.
  - simpl.
    edestruct (IH (ClockState (now σ + dt) (time_defaults σ) (shown σ)))
      as (σ' & Hrun & Hds & Hshown); [done|].
    by exists σ'.
Qed.

(** X4. However much time passes between the calls, every call of
    [display_time] without argument shows the clock reading taken when the
    function was defined. *)
Theorem display_time_frozen σ sts :
  ∃ σ', exec_all display_time sts (def_display_time σ) = Some σ' ∧
        shown σ' =
          shown σ ++ replicate (length (call_times (now σ) sts)) (now σ).
Proof.
  destruct (exec_all_display_time sts (def_display_time σ) (now σ))
    as (σ' & Hrun & _ & Hshown).
  { simpl. by rewrite lookup_insert_eq. }
  by exists σ'.
Qed.





End MutableDefaultsRunsProofs.

(** ** libraries/pydantic/05_custom_validator.py: normalisation *)

Module CustomValidatorMoreProofs.
Import PyStr PyStrFacts CustomValidator CustomValidatorProofs.
Local Open Scope N_scope.

Section Username.
Context {U : UnicodeData}.

(** The check sees a string only through its lowercase form. *)
Lemma isalnum_stripped_lower v :
  forallb is_ascii v = true →
  isalnum (replace_char 95 [] (ascii_lower <$> v)) = isalnum (replace_char 95 [] v).
Proof.
  intros Hv. rewrite (replace_char_fmap _ _ ascii_lower_underscore).
  apply isalnum_ascii_lower. by apply replace_char_ascii.
Qed.

(** X6. On ASCII usernames the validator ignores case: two usernames with
    the same lowercase form are both rejected, or both accepted with the
    same result. *)
Theorem validate_username_ignores_case v w :
  forallb is_ascii v = true →
  forallb is_ascii w = true →
  ascii_lower <$> v = ascii_lower <$> w →
  validate_username v = validate_username w.
Proof.
  intros Hv Hw Heq. unfold validate_username.
  rewrite <- (isalnum_stripped_lower v Hv), <- (isalnum_stripped_lower w Hw).
  rewrite (str_lower_ascii v Hv), (str_lower_ascii w Hw).
  by rewrite Heq.
Qed.

(** X7. An accepted ASCII username comes back with the length it had and
    with its underscores where they were: the underscores are removed for
    the check only, and a length bound that held before the validator
    still holds after it. *)
Theorem validate_username_keeps_shape v r :
  forallb is_ascii v = true →
  validate_username v = Ok r →
  length r = length v ∧
  ∀ i, r !! i = Some 95 ↔ v !! i = Some 95.
Proof.
  intros Hv. unfold validate_username.
  destruct (isalnum (replace_char 95 [] v)); simpl; [|done].
  rewrite (str_lower_ascii v Hv). intros [= <-].
  split; [apply length_fmap|].
  intros i. rewrite list_lookup_fmap.
  destruct (v !! i) as [c|]; simpl; [|done].
  pose proof (ascii_lower_underscore c) as Hc.
  split; intros [= Heq]; f_equal.
  - apply N.eqb_eq. rewrite <- Hc. by apply N.eqb_eq.
  - apply N.eqb_eq. rewrite Hc. by apply N.eqb_eq.
Qed.
End Username.

Lemma validate_username_ignores_case_witness :
  validate_username (lit "Aditya_Pm") = validate_username (lit "aDITYA_pM").
Proof.
  apply (validate_username_ignores_case (U:=unicode_excerpt)); reflexivity.
Defined.

Lemma validate_username_keeps_shape_witness :
  length (lit "aditya_pm") = length (lit "Aditya_Pm") ∧
  (lit "aditya_pm" !! 6%nat = Some 95 ↔ lit "Aditya_Pm" !! 6%nat = Some 95).
Proof.
  destruct (validate_username_keeps_shape (U:=unicode_excerpt)
              (lit "Aditya_Pm") (lit "aditya_pm")) as [Hlen Hus]; [reflexivity..|].
  split; [exact Hlen|apply Hus].
Defined.

(** X8. The scheme test of [add_https] is a case-sensitive look at the
    start of the string: whatever begins with another character than a
    lowercase h, such as HTTP://... or a URL after a blank, gets https://
    put in front. *)
Theorem add_https_first_char c s :
  c ≠ 104 →
  add_https (Some (c :: s)) = Some (lit "https://" ++ c :: s).
Proof.
  intros Hc. apply add_https_bare; [done|].
  rewrite startswith_any_2.
  change (startswith (lit "http://") (c :: s))
    with ((104 =? c) && startswith (lit "ttp://") s).
  change (startswith (lit "https://") (c :: s))
    with ((104 =? c) && startswith (lit "ttps://") s).
  destruct (N.eqb_spec 104 c) as [Heq|_]; [by destruct Hc|done].
Qed.

Lemma add_https_first_char_witness :
  add_https (Some (lit "HTTP://aditya.com")) = Some (lit "https://HTTP://aditya.com").
Proof. apply (add_https_first_char 72 (lit "TTP://aditya.com")). discriminate. Defined.

End CustomValidatorMoreProofs.

(** ** libraries/pydantic: what the patterns accept *)

Module PydanticPatternsProofs.
Import PyStr PyStrFacts Regex RegexFacts PydanticAnnotated PydanticPatterns.
Local Open Scope N_scope.

Lemma matches_class_iff rs s :
  matches (Class rs) s ↔ ∃ c, s = [c] ∧ in_class rs c = true.
Proof.
  split.
  - intros Hm. inversion Hm; subst. by eexists.
  - intros (c & -> & Hc). by constructor.
Qed.

Lemma matches_cat_iff r1 r2 s :
  matches (Cat r1 r2) s ↔ ∃ s1 s2, s = s1 ++ s2 ∧ matches r1 s1 ∧ matches r2 s2.
Proof.
  split.
  - intros Hm. inversion Hm; subst. by eexists _, _.
  - intros (s1 & s2 & -> & H1 & H2). by constructor.
Qed.

(** A repeated class matches the strings over the class. *)
Lemma matches_star_class rs s :
  matches (Star (Class rs)) s ↔ forallb (in_class rs) s = true.
Proof.
  split.
  - intros Hm. remember (Star (Class rs)) as r eqn:Hr.
    induction Hm as [| | | | | |r0 s1 s2 H1 _ H2 IH2]; try discriminate; [done|].
    injection Hr as ->. apply matches_class_iff in H1 as (c & -> & Hc).
    simpl. rewrite Hc. by apply IH2.
  - induction s as [|c s IH]; intros Hs; [constructor|].
    cbn [forallb] in Hs. apply andb_true_iff in Hs as [Hc Hs].
    apply (matches_star_app (Class rs) [c] s); [by constructor|by apply IH].
Qed.

Lemma matches_plus_class rs s :
  matches (plus (Class rs)) s ↔ s ≠ [] ∧ forallb (in_class rs) s = true.
Proof.
  unfold plus. rewrite matches_cat_iff. split.
  - intros (s1 & s2 & -> & H1 & H2).
    apply matches_class_iff in H1 as (c & -> & Hc).
    apply matches_star_class in H2. simpl. by rewrite Hc, H2.
  - intros [Hne Hs]. destruct s as [|c s]; [done|].
    cbn [forallb] in Hs. apply andb_true_iff in Hs as [Hc Hs].
    exists [c], s. split; [done|]. split; [by constructor|by apply matches_star_class].
Qed.

Lemma matches_at_least_class n rs : ∀ s,
  matches (at_least n (Class rs)) s ↔
  (n ≤ length s)%nat ∧ forallb (in_class rs) s = true.
Proof.
  induction n as [|n IH]; intros s; simpl.
  - rewrite matches_star_class. split; [intros ?; split; [lia|done]|by intros [_ ?]].
  - rewrite matches_cat_iff. split.
    + intros (s1 & s2 & -> & H1 & H2).
      apply matches_class_iff in H1 as (c & -> & Hc).
      apply IH in H2 as [Hlen Hs]. simpl. rewrite Hc, Hs. split; [lia|done].
    + intros [Hlen Hs]. destruct s as [|c s]; simpl in Hlen; [lia|].
      cbn [forallb] in Hs. apply andb_true_iff in Hs as [Hc Hs].
      exists [c], s. split; [done|]. split; [by constructor|].
      apply IH. split; [lia|done].
Qed.

Ltac class_eq :=
  unfold in_class, email_local_char, email_domain_char, ascii_isalpha, slug_char,
    ascii_isalnum, ascii_isupper, ascii_islower, ascii_isdigit;
  cbn [existsb];
  apply eq_true_iff_eq;
  rewrite ?orb_true_iff, ?andb_true_iff, ?N.leb_le, ?N.eqb_eq;
  rewrite ?orb_true_iff, ?andb_true_iff, ?N.leb_le, ?N.eqb_eq;
  lia.

Lemma local_class c :
  in_class [(97, 122); (65, 90); (48, 57); (46, 46); (95, 95); (37, 37);
            (43, 43); (45, 45)] c = email_local_char c.
Proof. class_eq. Qed.

Lemma domain_class c :
  in_class [(97, 122); (65, 90); (48, 57); (46, 46); (45, 45)] c
    = email_domain_char c.
Proof. class_eq. Qed.

Lemma alpha_class c :
  in_class [(97, 122); (65, 90)] c = ascii_isalpha c.
Proof. class_eq. Qed.

Lemma slug_class c :
  in_class [(97, 122); (48, 57); (45, 45)] c = slug_char c.
Proof. class_eq. Qed.

Lemma forallb_ext_eq {A} (f g : A → bool) (l : list A) :
  (∀ x, f x = g x) → forallb f l = forallb g l.
Proof. intros Hfg. induction l as [|x l IH]; simpl; [done|]. by rewrite Hfg, IH. Qed.

(** X12. The e-mail pattern of [User] accepts exactly the strings made of a
    non-empty local part over letters, digits and [._%+-], an at sign, a
    non-empty domain over letters, digits, dots and hyphens, a dot, and at
    least two letters. *)
Theorem email_pattern_shape s :
  fullmatch email_pattern s = true ↔ email_shape s.
Proof.
  rewrite fullmatch_spec. unfold email_pattern, email_shape, chr.
  split.
  - intros Hm.
    apply matches_cat_iff in Hm as (local & s1 & -> & Hlocal & Hm).
    apply matches_cat_iff in Hm as (at_ & s2 & -> & Hat & Hm).
    apply matches_cat_iff in Hm as (domain & s3 & -> & Hdomain & Hm).
    apply matches_cat_iff in Hm as (dot & tld & -> & Hdot & Htld).
    apply matches_plus_class in Hlocal as [Hl1 Hl2].
    apply matches_plus_class in Hdomain as [Hd1 Hd2].
    apply matches_at_least_class in Htld as [Ht1 Ht2].
    apply matches_class_iff in Hat as (c1 & -> & Hc1).
    apply matches_class_iff in Hdot as (c2 & -> & Hc2).
    assert (c1 = 64) as ->.
    { unfold in_class in Hc1. simpl in Hc1.
      rewrite orb_false_r, andb_true_iff, !N.leb_le in Hc1. lia. }
    assert (c2 = 46) as ->.
    { unfold in_class in Hc2. simpl in Hc2.
      rewrite orb_false_r, andb_true_iff, !N.leb_le in Hc2. lia. }
    exists local, domain, tld. split_and!; try done.
    + by rewrite <- (forallb_ext_eq _ _ local local_class).
    + by rewrite <- (forallb_ext_eq _ _ domain domain_class).
    + by rewrite <- (forallb_ext_eq _ _ tld alpha_class).
  - intros (local & domain & tld & -> & Hl1 & Hl2 & Hd1 & Hd2 & Ht1 & Ht2).
    apply matches_cat_iff. exists local, ([64] ++ domain ++ [46] ++ tld).
    split; [done|]. split.
    { apply matches_plus_class. split; [done|].
      by rewrite (forallb_ext_eq _ _ local local_class). }
    apply matches_cat_iff. exists [64], (domain ++ [46] ++ tld).
    split; [done|]. split; [by constructor|].
    apply matches_cat_iff. exists domain, ([46] ++ tld).
    split; [done|]. split.
    { apply matches_plus_class. split; [done|].
      by rewrite (forallb_ext_eq _ _ domain domain_class). }
    apply matches_cat_iff. exists [46], tld.
    split; [done|]. split; [by constructor|].
    apply matches_at_least_class. split; [done|].
    by rewrite (forallb_ext_eq _ _ tld alpha_class).
Qed.

Lemma forallb_not_at (f : char → bool) s :
  f 64 = false → forallb f s = true → filter (λ c, c = 64) s = [].
Proof.
  intros Hf. induction s as [|c s IH]; [done|].
  cbn [forallb]. intros [Hc Hs]%andb_true_iff.
  rewrite filter_cons. case_decide as Heq; [congruence|by apply IH].
Qed.

Lemma forallb_is_ascii (f : char → bool) s :
  (∀ c, f c = true → is_ascii c = true) →
  forallb f s = true → forallb is_ascii s = true.
Proof.
  intros Hf. induction s as [|c s IH]; [done|].
  cbn [forallb]. intros [Hc Hs]%andb_true_iff.
  by rewrite (Hf c Hc), IH.
Qed.

(** X13. An address that the pattern accepts contains exactly one at sign,
    consists of ASCII characters only and has at least six of them. *)
Theorem email_pattern_one_at s :
  fullmatch email_pattern s = true →
  length (filter (λ c, c = 64) s) = 1%nat ∧
  forallb is_ascii s = true ∧
  (6 ≤ length s)%nat.
Proof.
  intros (local & domain & tld & -> & Hl1 & Hl2 & Hd1 & Hd2 & Ht1 & Ht2)
    %email_pattern_shape.
  split_and!.
  - rewrite !filter_app.
    rewrite (forallb_not_at _ local eq_refl Hl2),
      (forallb_not_at _ domain eq_refl Hd2), (forallb_not_at _ tld eq_refl Ht2).
    reflexivity.
  - rewrite !forallb_app.
    rewrite (forallb_is_ascii email_local_char local), 
      (forallb_is_ascii email_domain_char domain),
      (forallb_is_ascii ascii_isalpha tld); try done.
    all: intros c; unfold email_local_char, email_domain_char, ascii_isalpha,
      ascii_isalnum, ascii_isupper, ascii_islower, ascii_isdigit, is_ascii;
      rewrite ?orb_true_iff, ?andb_true_iff, ?N.leb_le, ?N.eqb_eq, ?N.ltb_lt;
      rewrite ?orb_true_iff, ?andb_true_iff, ?N.leb_le, ?N.eqb_eq; lia.
  - rewrite !length_app. simpl.
    destruct local; [done|]. destruct domain; [done|]. simpl. lia.
Qed.

Lemma email_pattern_one_at_witness :
  length (filter (λ c, c = 64) (lit "aditya@email.com")) = 1%nat ∧
  forallb is_ascii (lit "aditya@email.com") = true ∧
  (6 ≤ length (lit "aditya@email.com"))%nat.
Proof. apply email_pattern_one_at. reflexivity. Defined.

(** X14. The slug pattern of [BlogPost] accepts exactly the non-empty
    strings of lowercase ASCII letters, digits and hyphens. *)
Theorem slug_pattern_shape s :
  fullmatch slug_pattern s = true ↔ s ≠ [] ∧ forallb slug_char s = true.
Proof.
  rewrite fullmatch_spec. unfold slug_pattern. rewrite matches_plus_class.
  by rewrite (forallb_ext_eq _ _ s slug_class).
Qed.

End PydanticPatternsProofs.

(** ** libraries/pydantic/03_annotated.py: the error report *)

Module PydanticErrorLinesProofs.
Import PyStr Regex PydanticAnnotated PydanticErrorLines.

Ltac sublist_tac :=
  repeat first [apply sublist_nil | apply sublist_skip | apply sublist_cons].

(** X11. A ValidationError of [User] is never empty; it has at most one
    line per field, the lines come in the order in which the fields are
    declared, and the type of each line is one that the field's own
    annotation can produce. *)
Theorem User_validate_error_lines u title errors :
  User_validate u = ValidationError title errors →
  title = "User" ∧
  errors ≠ [] ∧
  errors.*1 `sublist_of` ["uid"; "username"; "email"; "age"] ∧
  forallb line_allowed errors = true.
Proof.
  unfold User_validate, uid_field, username_field, email_field, age_field.
  cbn [first_error check_int check_str].
  destruct (0 <? uid u)%Z;
    destruct (3 <=? length (username u));
    destruct (length (username u) <=? 20);
    destruct (fullmatch email_pattern (email u));
    destruct (13 <=? age u)%Z;
    destruct (age u <=? 130)%Z;
    cbn [line app]; intros Hv; try discriminate;
    injection Hv as <- <-;
    (split_and!; [reflexivity|discriminate|cbn; sublist_tac|reflexivity]).
Qed.

Lemma User_validate_error_lines_witness :
  "User" = "User" ∧
  [("uid", greater_than); ("username", string_too_short);
   ("age", greater_than_equal)] ≠ [] ∧
  [("uid", greater_than); ("username", string_too_short);
   ("age", greater_than_equal)].*1 `sublist_of` ["uid"; "username"; "email"; "age"] ∧
  forallb line_allowed
    [("uid", greater_than); ("username", string_too_short);
     ("age", greater_than_equal)] = true.
Proof. apply (User_validate_error_lines invalid_user). reflexivity. Defined.

End PydanticErrorLinesProofs.

(** ** libraries/concurrent_futures/processpool_01_pickle.py: any arguments *)

Module ProcessPoolPickleMoreProofs.
Import ProcessPoolPickle ProcessPoolPickleProofs.

Lemma module_top_level_task : module !! "top_level_task" = Some (Func top_level_task).
Proof. vm_compute. reflexivity. Qed.

Lemma module_compute : module !! "compute" = Some (Func compute).
Proof. vm_compute. reflexivity. Qed.

Lemma pickle_compute : pickle_function module compute = Ok "compute".
Proof.
  apply pickle_function_top_level; [done|done|apply module_compute].
Qed.

Lemma pickle_Picklable z : pickle_value module (Picklable z) = Ok (Picklable z).
Proof.
  unfold pickle_value, Picklable.
  assert (Hc : pickle_class module ["Picklable"] = Ok "Picklable").
  { vm_compute. reflexivity. }
  by rewrite Hc.
Qed.

(** X15. For any list of integers, the pool with [top_level_task] returns
    their squares, and the pool with [compute] on [Picklable] objects
    returns the doubles of their values: one result per submitted task, in
    the order of submission. *)
Theorem pool_results_in_order (zs : list Z) :
  results (submit module top_level_task <$> (Int <$> zs))
    = Ok ((λ z, Int (z * z)) <$> zs) ∧
  results (submit module compute <$> (Picklable <$> zs))
    = Ok ((λ z, Int (z * 2)) <$> zs).
Proof.
  split.
  - rewrite (results_top_level module "top_level_task" top_level_task zs);
      [|done|done|apply module_top_level_task].
    induction zs as [|z zs IH]; [done|].
    rewrite !fmap_cons. cbn [map_code]. rewrite IH. reflexivity.
  - induction zs as [|z zs IH]; [done|].
    rewrite !fmap_cons. cbn [results]. rewrite IH.
    unfold submit at 1. cbn [outcome].
    rewrite pickle_compute. cbn [bind]. rewrite pickle_Picklable. cbn [bind].
    unfold worker. rewrite module_compute. reflexivity.
Qed.

(** X16. A pool block guarded by [try/except] never lets the exception of
    a local function out: with at least one task it prints the caught
    serialization failure instead of results, and with no task at all
    nothing is pickled and it prints an empty result list. *)
Theorem guarded_block_local f args out :
  "<locals>" ∈ qualname f →
  try_except (pool_block f args) (λ e, print (Caught e)) out =
    (out ++ [match args with
             | [] => Results []
             | _ :: _ => Caught (PickleFailure (qualname f))
             end], Ok tt).
Proof.
  intros Hf. unfold try_except, pool_block, seq_prog, lift, print.
  destruct args as [|a args].
  - reflexivity.
  - by rewrite (results_local module f a args Hf).
Qed.

Lemma guarded_block_local_witness :
  try_except (pool_block nested_task [Int 0]) (λ e, print (Caught e)) [] =
    ([Caught (PickleFailure ["main"; "<locals>"; "nested_task"])], Ok tt).
Proof.
  apply (guarded_block_local nested_task [Int 0] []).
  simpl. rewrite !elem_of_cons. auto.
Defined.

End ProcessPoolPickleMoreProofs.

(** ** frameworks/fastapi/tutorial_projects/fastapi_blog/main.py *)

Module FastAPIBlogProofs.
Import FastAPIRouting FastAPIRoutingProofs.


End FastAPIBlogProofs.

(** ** libraries/pydantic/00_why_pydantic.py *)

Module ManualValidationProofs.
Import PyStr ManualValidation.

(** X18. [create_user] reports one problem only, the first in the order
    username, email, age: a later argument of the wrong type goes unnoticed
    as long as an earlier one is wrong. *)
Theorem create_user_first_error username email age msg :
  create_user username email age = RaiseTypeError msg →
  (isinstance_str username = false ∧ msg = "Username must be a string") ∨
  (isinstance_str username = true ∧ isinstance_str email = false ∧
     msg = "Email must be a string") ∨
  (isinstance_str username = true ∧ isinstance_str email = true ∧
     isinstance_int age = false ∧ msg = "Age must be an integer").
Proof.
  unfold create_user.
  destruct (isinstance_str username); simpl; [|intros [= <-]; by left].
  destruct (isinstance_str email); simpl; [|intros [= <-]; right; by left].
  destruct (isinstance_int age); simpl; [done|].
  intros [= <-]. right; right. done.
Qed.

(** The call that the script leaves commented out, line 17: the e-mail and
    the age are both wrong and only the e-mail is reported. *)
Lemma create_user_first_error_witness :
  (isinstance_str (PyStr (lit "Aditya")) = false ∧
     "Email must be a string" = "Username must be a string") ∨
  (isinstance_str (PyStr (lit "Aditya")) = true ∧ isinstance_str PyNone = false ∧
     "Email must be a string" = "Email must be a string") ∨
  (isinstance_str (PyStr (lit "Aditya")) = true ∧ isinstance_str PyNone = true ∧
     isinstance_int (PyStr (lit "old")) = false ∧
     "Email must be a string" = "Age must be an integer").
Proof.
  apply (create_user_first_error (PyStr (lit "Aditya")) PyNone (PyStr (lit "old"))).
  reflexivity.
Defined.

(** X19. [create_user] returns exactly when the username and the e-mail are
    strings and the age is an [int] or a [bool]; the dict then has the
    three keys and holds the arguments as they were passed, so an empty
    name, a negative age or [True] as age all go through. *)
Theorem create_user_returns username email age d :
  create_user username email age = Return d ↔
  isinstance_str username = true ∧ isinstance_str email = true ∧
  isinstance_int age = true ∧
  d !! "username" = Some username ∧ d !! "email" = Some email ∧
  d !! "age" = Some age ∧
  dom d = {["username"; "email"; "age"]}.
Proof.
  unfold create_user. split.
  - destruct (isinstance_str username); simpl; [|done].
    destruct (isinstance_str email); simpl; [|done].
    destruct (isinstance_int age); simpl; [|done].
    intros [= <-]. split_and!; try done.
    all: rewrite !dom_insert_L, dom_empty_L; set_solver.
  - intros (-> & -> & -> & Hu & He & Ha & Hdom). simpl. f_equal.
    apply map_eq. intros k.
    destruct (decide (k = "username")) as [->|Hk1].
    { by rewrite Hu, lookup_insert_eq. }
    rewrite lookup_insert_ne by done.
    destruct (decide (k = "email")) as [->|Hk2].
    { by rewrite He, lookup_insert_eq. }
    rewrite lookup_insert_ne by done.
    destruct (decide (k = "age")) as [->|Hk3].
    { by rewrite Ha, lookup_singleton_eq. }
    rewrite lookup_singleton_ne by done.
    symmetry. apply not_elem_of_dom. rewrite Hdom.
    rewrite !elem_of_union, !elem_of_singleton. tauto.
Qed.

End ManualValidationProofs.

(** ** libraries/pydantic/06_computed_field.py *)

Module ComputedFieldProofs.
Import PyStr ComputedField.

(** X20. The display name is the username unless both names are given, and
    then it is the two names around one blank; for a user whose username
    has the three characters that its annotation demands, the display name
    has at least three characters as well. *)
Theorem display_name_length u :
  3 ≤ length (username u) →
  3 ≤ length (display_name u) ∧
  ((first_name u = [] ∨ last_name u = []) ∧ display_name u = username u ∨
   (first_name u ≠ [] ∧ last_name u ≠ [] ∧
    display_name u = first_name u ++ [32%N] ++ last_name u)).
Proof.
  intros Hlen. unfold display_name.
  destruct (first_name u) as [|c1 f]; simpl.
  { split; [done|]. left. split; [by left|done]. }
  destruct (last_name u) as [|c2 l]; simpl.
  { split; [done|]. left. split; [by right|done]. }
  split.
  - rewrite length_app. simpl. lia.
  - right. done.
Qed.

(** The second user of the script, line 41. *)
Lemma display_name_length_witness :
  3 ≤ length (display_name
    {| username := lit "Aditya_Pm"; first_name := lit "Aditya";
       last_name := lit "Menon"; follower_count := 0 |}).
Proof.
  apply (display_name_length
    {| username := lit "Aditya_Pm"; first_name := lit "Aditya";
       last_name := lit "Menon"; follower_count := 0 |}).
  simpl. lia.
Defined.

End ComputedFieldProofs.

(** ** libraries/concurrent_futures: shared state under the lock *)

Module SharedStateProofs.
Import SharedState.
Local Open Scope Z_scope.

Lemma total_perm order deltas : order ≡ₚ deltas → total order = total deltas.
Proof.
  induction 1 as [|d l l' _ IH|d1 d2 l|l1 l2 l3 _ IH1 _ IH2];
    unfold total in *; simpl; lia.
Qed.

Lemma set_xy_twice (m : gmap string Z) a b a' b' :
  <["y" := b']> (<["x" := a']> (<["y" := b]> (<["x" := a]> m)))
    = <["y" := b']> (<["x" := a']> m).
Proof.
  rewrite (insert_insert_ne _ "x" "y" a' b) by done.
  rewrite insert_insert_eq. f_equal. by rewrite insert_insert_eq.
Qed.

Lemma mbind_getattr {B} name (k : Z → M B) σ v :
  data σ !! name = Some v → (getattr name ≫= k) σ = k v σ.
Proof. intros Hv. unfold mbind, M_bind, bind, getattr. by rewrite Hv. Qed.

Lemma mbind_getitem {B} key (k : Z → M B) σ v :
  data σ !! key = Some v → (getitem key ≫= k) σ = k v σ.
Proof. intros Hv. unfold mbind, M_bind, bind, getitem. by rewrite Hv. Qed.

Lemma mbind_getitem_missing {B} key (k : Z → M B) σ :
  data σ !! key = None → (getitem key ≫= k) σ = (σ, Raise (KeyError key)).
Proof. intros Hv. unfold mbind, M_bind, bind, getitem. by rewrite Hv. Qed.

Lemma mbind_store {B} name v (k : unit → M B) σ :
  (store name v ≫= k) σ = k tt (Shared (<[name := v]> (data σ)) (console σ)).
Proof. reflexivity. Qed.

Lemma mbind_print {B} a b delta (k : unit → M B) σ :
  (print_modifying a b delta ≫= k) σ =
    k tt (Shared (data σ) (console σ ++ [(a, b, delta)])).
Proof. reflexivity. Qed.

Ltac lookup_tac :=
  cbn [data];
  repeat (rewrite lookup_insert_eq || rewrite lookup_insert_ne by done);
  first [reflexivity | eassumption].

Ltac step_tac :=
  repeat first
    [ rewrite mbind_store
    | rewrite mbind_print
    | erewrite mbind_getattr by lookup_tac
    | erewrite mbind_getitem by lookup_tac ].

(** One task of processpool_03, when both attributes are set. *)
Lemma modify_data_step delta σ a b :
  data σ !! "x" = Some a →
  data σ !! "y" = Some b →
  modify_data delta σ =
    (Shared (<["y" := b + delta]> (<["x" := a + delta]> (data σ)))
            (console σ ++ [(a, b, delta)]),
     Ok (a + delta, b + delta)).
Proof. intros Hx Hy. unfold modify_data. step_tac. reflexivity. Qed.

(** One task of processpool_04, when both keys are present. *)
Lemma modify_step delta σ a b :
  data σ !! "x" = Some a →
  data σ !! "y" = Some b →
  modify delta σ =
    (Shared (<["y" := b + delta]> (<["x" := a + delta]> (data σ))) (console σ),
     Ok (a + delta, b + delta)).
Proof. intros Hx Hy. unfold modify. step_tac. reflexivity. Qed.

(** A run of tasks that each add their [delta] to both entries. *)
Lemma run_tasks_adds (task : Z → M (Z * Z)) (lines : Z → Z → Z → list (Z * Z * Z)) :
  (∀ delta σ a b,
     data σ !! "x" = Some a → data σ !! "y" = Some b →
     task delta σ =
       (Shared (<["y" := b + delta]> (<["x" := a + delta]> (data σ)))
               (console σ ++ lines a b delta),
        Ok (a + delta, b + delta))) →
  ∀ order σ a b,
    data σ !! "x" = Some a → data σ !! "y" = Some b →
    ∃ σ' rs,
      run_tasks task order σ = (σ', Ok rs) ∧
      data σ' = <["y" := b + total order]> (<["x" := a + total order]> (data σ)) ∧
      length rs = length order ∧
      Forall (λ r, r.2 - r.1 = b - a) rs.
Proof.
  intros Htask. induction order as [|delta order IH]; intros σ a b Hx Hy.
  - exists σ, []. simpl. unfold mret, M_ret, ret. split_and!; try done.
    rewrite !Z.add_0_r.
    rewrite (insert_id _ "x" a) by done. by rewrite (insert_id _ "y" b).
  - cbn [run_tasks]. unfold mbind, M_bind, bind at 1.
    rewrite (Htask delta σ a b Hx Hy).
    edestruct (IH (Shared (<["y" := b + delta]> (<["x" := a + delta]> (data σ)))
                     (console σ ++ lines a b delta)) (a + delta) (b + delta))
      as (σ' & rs & Hrun & Hdata & Hlen & Hrs).
    { cbn [data]. rewrite lookup_insert_ne by done. apply lookup_insert_eq. }
    { cbn [data]. apply lookup_insert_eq. }
    unfold bind. rewrite Hrun. unfold mret, M_ret, ret.
    exists σ', ((a + delta, b + delta) :: rs). split_and!.
    + done.
    + rewrite Hdata. cbn [data]. rewrite set_xy_twice. simpl.
      by rewrite !Z.add_assoc.
    + simpl. by rewrite Hlen.
    + constructor; [simpl; lia|].
      eapply Forall_impl; [exact Hrs|]. simpl. intros r Hr. lia.
Qed.

(** X21. Whatever the order in which the tasks of processpool_03 get the
    lock, the script ends with both attributes of [my_obj] raised by the
    sum of all deltas; no task raises, and every pair that a task returns
    keeps the difference between [y] and [x]. *)
Theorem script_03_any_order my_obj deltas order :
  order ≡ₚ deltas →
  script_03 my_obj order =
    ({| x := x my_obj + total deltas; y := y my_obj + total deltas |}, Ok tt) ∧
  ∃ σ' rs,
    run_tasks modify_data order (Shared {[ "x" := x my_obj; "y" := y my_obj ]} [])
      = (σ', Ok rs) ∧
    length rs = length deltas ∧
    Forall (λ r, r.2 - r.1 = y my_obj - x my_obj) rs.
Proof.
  intros Hperm.
  destruct (run_tasks_adds modify_data (λ a b delta, [(a, b, delta)])
              modify_data_step order
              (Shared {[ "x" := x my_obj; "y" := y my_obj ]} [])
              (x my_obj) (y my_obj))
    as (σ' & rs & Hrun & Hdata & Hlen & Hrs).
  { apply lookup_insert_eq. }
  { cbn [data]. rewrite lookup_insert_ne by done. apply lookup_singleton_eq. }
  split.
  - unfold script_03. rewrite Hrun. unfold getattr. rewrite Hdata.
    rewrite (lookup_insert_ne _ "y" "x") by done. rewrite !lookup_insert_eq.
    by rewrite (total_perm _ _ Hperm).
  - exists σ', rs. split_and!; [done| |done].
    rewrite Hlen. by apply Permutation_length.
Qed.

(** The three tasks of the script, taking the lock in the order 2, 3, 1. *)
Lemma script_03_any_order_witness :
  script_03 {| x := 10; y := 20 |} [2; 3; 1] = ({| x := 16; y := 26 |}, Ok tt).
Proof.
  apply (script_03_any_order {| x := 10; y := 20 |} [1; 2; 3] [2; 3; 1]).
  symmetry. apply (Permutation_cons_app [2; 3] [] 1). reflexivity.
Defined.

(** X22. [modify_values] after [get_values] copies one object into another;
    [modify_values] is not atomic: with a dict that has "x" but no "y" it
    raises KeyError for "y" after having overwritten [x], and with a dict
    without "x" it raises KeyError for "x" and changes nothing. *)
Theorem modify_values_get_values self other values_dict :
  modify_values self (get_values other) = (other, Ok tt) ∧
  (∀ vx, values_dict !! "x" = Some vx → values_dict !! "y" = None →
     modify_values self values_dict =
       ({| x := vx; y := y self |}, Raise (KeyError "y"))) ∧
  (values_dict !! "x" = None →
     modify_values self values_dict = (self, Raise (KeyError "x"))).
Proof.
  split_and!.
  - unfold modify_values, get_values.
    rewrite lookup_insert_eq, lookup_insert_ne, lookup_singleton_eq by done.
    by destruct other.
  - intros vx Hx Hy. unfold modify_values. by rewrite Hx, Hy.
  - intros Hx. unfold modify_values. by rewrite Hx.
Qed.

Lemma modify_values_get_values_witness :
  modify_values {| x := 10; y := 20 |} {[ "x" := 16 ]} =
    ({| x := 16; y := 20 |}, Raise (KeyError "y")).
Proof.
  destruct (modify_values_get_values {| x := 10; y := 20 |} {| x := 0; y := 0 |}
              {[ "x" := 16 ]}) as (_ & Hpartial & _).
  apply Hpartial; reflexivity.
Defined.

(** X23. Whatever the order in which the tasks of processpool_04 get the
    lock, the script ends with both fields of [my_data] raised by the sum
    of all deltas, and no task raises. *)
Theorem script_04_any_order my_data deltas order :
  order ≡ₚ deltas →
  script_04 my_data order =
    ({| x := x my_data + total deltas; y := y my_data + total deltas |}, Ok tt).
Proof.
  intros Hperm.
  destruct (run_tasks_adds modify (λ _ _ _, []) ) with
    (order := order) (σ := Shared (get_values my_data) [])
    (a := x my_data) (b := y my_data)
    as (σ' & rs & Hrun & Hdata & _ & _).
  { intros delta σ a b Hx Hy. rewrite app_nil_r. by apply modify_step. }
  { apply lookup_insert_eq. }
  { cbn [data]. unfold get_values. rewrite lookup_insert_ne by done.
    apply lookup_singleton_eq. }
  unfold script_04. rewrite Hrun, Hdata. unfold modify_values.
  rewrite (lookup_insert_ne _ "y" "x") by done. rewrite !lookup_insert_eq.
  by rewrite (total_perm _ _ Hperm).
Qed.

Lemma script_04_any_order_witness :
  script_04 {| x := 10; y := 20 |} [3; 1; 2] = ({| x := 16; y := 26 |}, Ok tt).
Proof.
  apply (script_04_any_order {| x := 10; y := 20 |} [1; 2; 3] [3; 1; 2]).
  apply (Permutation_cons_app [1; 2] [] 3). reflexivity.
Defined.

(** X24. [modify] on a dict that has "x" but no "y" raises KeyError for "y"
    and leaves "x" already raised by [delta]; on a dict without "x" it
    raises KeyError for "x" and changes nothing. *)
Theorem modify_missing_key delta σ :
  (∀ a, data σ !! "x" = Some a → data σ !! "y" = None →
     modify delta σ =
       (Shared (<["x" := a + delta]> (data σ)) (console σ), Raise (KeyError "y"))) ∧
  (data σ !! "x" = None → modify delta σ = (σ, Raise (KeyError "x"))).
Proof.
  split.
  - intros a Hx Hy. unfold modify. step_tac.
    apply mbind_getitem_missing. cbn [data].
    by rewrite lookup_insert_ne.
  - intros Hx. unfold modify. by apply mbind_getitem_missing.
Qed.

Lemma modify_missing_key_witness :
  modify 5 (Shared {[ "x" := 10 ]} []) =
    (Shared (<["x" := 10 + 5]> {[ "x" := 10 ]}) [], Raise (KeyError "y")).
Proof.
  destruct (modify_missing_key 5 (Shared {[ "x" := 10 ]} [])) as [Hy _].
  apply Hy; reflexivity.
Defined.

End SharedStateProofs.

(** ** libraries/concurrent_futures/processpool_02_shared_memory.py: the threads *)

Module ThreadSharedListProofs.
Import ThreadSharedList.

Lemma wf_mono l l' t : l `prefix_of` l' → wf l t → wf l' t.
Proof.
  intros [k ->] [->|[[n ->]|(n & -> & Hn)]].
  - by left.
  - right; left. by exists n.
  - right; right. exists n. split; [done|]. apply elem_of_app. by left.
Qed.

Lemma bind_all_nil (f : list event → list Z) ts :
  f [] = [] → Forall (λ t, t = []) ts → ts ≫= f = [].
Proof.
  intros Hf. induction 1 as [|t ts -> _ IH]; [done|].
  by rewrite bind_cons, Hf, IH.
Qed.

Lemma exec_invariant ts sched :
  schedule ts sched →
  ∀ σ, Forall (wf (shared_list σ)) ts →
    shared_list (exec sched σ) ≡ₚ shared_list σ ++ (ts ≫= pending) ∧
    shared_list σ `prefix_of` shared_list (exec sched σ) ∧
    ∃ new,
      returned (exec sched σ) = returned σ ++ new ∧
      new.*1 ≡ₚ ts ≫= copies ∧
      Forall (λ r, r.1 ∈ r.2 ∧ r.2 `prefix_of` shared_list (exec sched σ)) new.
Proof.
  induction 1 as [ts Hnil|ts e t rest sched Hperm Hsched IH]; intros σ Hwf.
  - simpl. rewrite (bind_all_nil pending ts eq_refl Hnil),
      (bind_all_nil copies ts eq_refl Hnil), app_nil_r.
    split_and!; [done|done|]. exists []. by rewrite app_nil_r.
  - rewrite Hperm in Hwf. apply Forall_cons in Hwf as [Hthread Hrest].
    rewrite !Hperm. cbn [exec].
    destruct Hthread as [?|[[n [= -> ->]]|(n & [= -> ->] & Hn)]]; [done|..].
    + (* the thread appends *)
      destruct (IH (step (Append n) σ)) as (Hfinal & Hpre & new & Hret & Hnew & Hall).
      { cbn [step shared_list]. constructor.
        - right; right. exists n. split; [done|].
          apply elem_of_app. right. apply list_elem_of_here.
        - eapply Forall_impl; [exact Hrest|]. intros t'.
          apply wf_mono. by apply prefix_app_r. }
      cbn [step shared_list returned] in *. split_and!.
      * rewrite Hfinal, !bind_cons. simpl. by rewrite <- app_assoc.
      * etrans; [|exact Hpre]. by apply prefix_app_r.
      * exists new. split_and!; [done| |done].
        by rewrite Hperm, Hnew, !bind_cons.
    + (* the thread copies *)
      destruct (IH (step (Copy n) σ)) as (Hfinal & Hpre & new & Hret & Hnew & Hall).
      { cbn [step shared_list]. constructor; [by left|done]. }
      cbn [step shared_list returned] in *. split_and!.
      * by rewrite Hfinal, !bind_cons.
      * done.
      * exists ((n, shared_list σ) :: new). split_and!.
        -- by rewrite Hret, <- app_assoc.
        -- rewrite Hperm, fmap_cons, Hnew, !bind_cons. by simpl.
        -- constructor; [by split|done].
Qed.

Lemma bind_thread_task args :
  (thread_task <$> args) ≫= pending = args ∧
  (thread_task <$> args) ≫= copies = args.
Proof.
  induction args as [|n args [IH1 IH2]]; [done|].
  rewrite fmap_cons, !bind_cons. by rewrite IH1, IH2.
Qed.

(** X25. However the threads of the pool interleave, once all tasks are
    done [shared_list] holds every argument exactly once; every task has
    returned a copy that contains its own argument and is an initial
    segment of the final list. *)
Theorem thread_task_any_schedule args sched :
  schedule (thread_task <$> args) sched →
  shared_list (exec sched init) ≡ₚ args ∧
  (returned (exec sched init)).*1 ≡ₚ args ∧
  Forall (λ r, r.1 ∈ r.2 ∧ r.2 `prefix_of` shared_list (exec sched init))
         (returned (exec sched init)).
Proof.
  intros Hsched.
  destruct (exec_invariant _ _ Hsched init) as (Hfinal & _ & new & Hret & Hnew & Hall).
  { apply Forall_fmap, Forall_true. intros n. right; left. by exists n. }
  destruct (bind_thread_task args) as [Hp Hc].
  rewrite Hp in Hfinal. rewrite Hc in Hnew. simpl in Hret, Hfinal.
  rewrite Hret. split_and!; done.
Qed.

(** Two tasks that both append before either copies. *)
Lemma thread_task_any_schedule_witness :
  shared_list (exec [Append 0; Append 1; Copy 0; Copy 1] init) ≡ₚ [0; 1]%Z ∧
  (returned (exec [Append 0; Append 1; Copy 0; Copy 1] init)).*1 ≡ₚ [0; 1]%Z ∧
  Forall (λ r, r.1 ∈ r.2 ∧
               r.2 `prefix_of` shared_list (exec [Append 0; Append 1; Copy 0; Copy 1] init))
         (returned (exec [Append 0; Append 1; Copy 0; Copy 1] init)).
Proof.
  apply (thread_task_any_schedule [0; 1]%Z).
  apply (schedule_cons _ (Append 0) [Copy 0] [thread_task 1]); [reflexivity|].
  apply (schedule_cons _ (Append 1) [Copy 1] [[Copy 0]]); [apply perm_swap|].
  apply (schedule_cons _ (Copy 0) [] [[Copy 1]]); [apply perm_swap|].
  apply (schedule_cons _ (Copy 1) [] [[]]); [apply perm_swap|].
  apply schedule_nil. by repeat constructor.
Defined.

End ThreadSharedListProofs.
